(** * NextMeet peer session manager (src/rtc.js, class RTCManager)

    A shallow embedding of [RTCManager]: the registry of peer connections and
    data channels, the offer/answer/ICE operations, data-channel send and
    dispatch, disconnection, track replacement, statistics and the
    [on]/[emit] event dispatcher; of [LocalSignaling], the signaling
    endpoint of the same file; and of the listeners with which the meeting
    page (src/recording.js) wires the two together.

    - JavaScript objects live in a store and the manager's two [Map]s hold
      references into it, as in the source: [Map.set] overwrites a
      reference, [Map.delete] and [Map.clear] drop references, none of them
      touches the object.
    - Methods are state-and-exception computations.  An [async] method is
      run to completion (operations on one peer are serialised); a rejected
      promise is a thrown error.
    - Callbacks registered with [on] are functions on the state of the
      collaborators that may throw; they do not call back into the manager.
    - [RTCPeerConnection] and [RTCDataChannel] belong to the browser; their
      model is in the first part of the file. *)

From stdpp Require Import gmap strings list fin_maps pretty.
From Stdlib Require Qcanon.

Set Default Proof Using "Type".

(** ** Values exchanged with the browser *)

Inductive JsError :=
| TypeError            (* member access on [undefined] *)
| SyntaxError          (* [JSON.parse] on text that is not JSON *)
| InvalidStateError    (* a WebRTC method called in a state that refuses it *)
| UserError (code : nat)  (* an error thrown by a registered callback *)
| DanglingRef.         (* not a JavaScript error: a reference that names no
                          object of the store; the invariant [wf] excludes it *)

Inductive Outcome (A : Type) :=
| Return (a : A)
| Throw (e : JsError).
Arguments Return {A} a.
Arguments Throw {A} e.

Inductive ConnectionState :=
| CsNew | CsConnecting | CsConnected | CsDisconnected | CsFailed | CsClosed.

Inductive ReadyState := RsConnecting | RsOpen | RsClosing | RsClosed.

Inductive SdpType := SdpOffer | SdpAnswer.

Record SessionDescription := { sdType : SdpType; sdp : string }.

Record IceCandidate :=
  { candidate : string; sdpMid : string; sdpMLineIndex : nat }.

Record Track := { trackId : nat; kind : string }.

(** A [MediaStream]: what [getTracks()] returns. *)
Record MediaStream := { getTracks : list Track }.

(** A value [JSON.stringify] accepts and [JSON.parse] produces. *)
#[warnings="-register-all"]
Inductive JSON :=
| JNull
| JBool (b : bool)
| JNum (z : Z)
| JStr (s : string)
| JArr (items : list JSON)
| JObj (fields : list (string * JSON)).

(** [event.data] of a data-channel message: text, or a binary buffer. *)
Inductive Payload :=
| PText (s : string)
| PBinary (bytes : list N).

(** [JSON.parse] converts its argument to a string first. *)
Definition payload_toString (p : Payload) : string :=
  match p with
  | PText s => s
  | PBinary _ => "[object ArrayBuffer]"
  end.

(** The objects handed to callbacks by [emit]. *)
Inductive EventData :=
| IceCandidateEvent (peerId : string) (c : IceCandidate)  (* { peerId, candidate } *)
| StateEvent (peerId : string) (state : ConnectionState)  (* { peerId, state } *)
| PeerEvent (peerId : string)                             (* { peerId } *)
| MessageEvent (peerId : string) (data : JSON)            (* { peerId, data } parsed *)
| BinaryEvent (peerId : string) (data : Payload).         (* { peerId, data } raw *)

(** ** The browser's objects

    [RTCPeerConnection] and [RTCDataChannel] are the browser's; the model
    keeps the part of their state the manager reads or changes, and the
    behaviour of the WebRTC API that the manager can run into: a method
    refused in the wrong state, and [close()] on a connection closing the
    channels created on it. *)

Record RTCPeerConnection := mkPC {
  connectionState : ConnectionState;
  localDescription : option SessionDescription;
  remoteDescription : option SessionDescription;
  iceCandidates : list IceCandidate;   (* remote candidates applied, in order *)
  senders : list Track;                (* tracks attached with [addTrack] *)
  handlersFor : option string          (* the [peerId] the installed [on...]
                                          handlers close over *)
}.

Record RTCDataChannel := mkDC {
  label : string;
  ordered : bool;
  readyState : ReadyState;
  sent : list string;                  (* what [send] was given, in order *)
  owner : nat;                         (* the connection it was created on *)
  chHandlersFor : option string        (* the [peerId] the installed [on...]
                                          handlers close over *)
}.

Definition pc_closed (pc : RTCPeerConnection) : bool :=
  match connectionState pc with CsClosed => true | _ => false end.

Definition is_open (st : ReadyState) : bool :=
  match st with RsOpen => true | _ => false end.

(** [new RTCPeerConnection(config)] *)
Definition pc_new : RTCPeerConnection :=
  mkPC CsNew None None [] [] None.

Definition pc_addTrack (track : Track) (pc : RTCPeerConnection)
  : Outcome unit * RTCPeerConnection :=
  (Return tt,
   mkPC (connectionState pc) (localDescription pc) (remoteDescription pc)
        (iceCandidates pc) (senders pc ++ [track]) (handlersFor pc)).

(** [pc.onicecandidate = ...; pc.onconnectionstatechange = ...; ...] *)
Definition pc_install_handlers (peerId : string) (pc : RTCPeerConnection)
  : Outcome unit * RTCPeerConnection :=
  (Return tt,
   mkPC (connectionState pc) (localDescription pc) (remoteDescription pc)
        (iceCandidates pc) (senders pc) (Some peerId)).

Definition pc_setLocalDescription (d : SessionDescription) (pc : RTCPeerConnection)
  : Outcome unit * RTCPeerConnection :=
  if pc_closed pc then (Throw InvalidStateError, pc)
  else (Return tt,
        mkPC (connectionState pc) (Some d) (remoteDescription pc)
             (iceCandidates pc) (senders pc) (handlersFor pc)).

Definition pc_setRemoteDescription (d : SessionDescription) (pc : RTCPeerConnection)
  : Outcome unit * RTCPeerConnection :=
  if pc_closed pc then (Throw InvalidStateError, pc)
  else (Return tt,
        mkPC (connectionState pc) (localDescription pc) (Some d)
             (iceCandidates pc) (senders pc) (handlersFor pc)).

(** Effect of [addIceCandidate] calls the connection accepts. *)
Definition with_candidates (cs : list IceCandidate) (pc : RTCPeerConnection)
  : RTCPeerConnection :=
  mkPC (connectionState pc) (localDescription pc) (remoteDescription pc)
       (iceCandidates pc ++ cs) (senders pc) (handlersFor pc).

(** The connection refuses a candidate while it has no remote description;
    otherwise the candidate is applied. *)
Definition pc_addIceCandidate (c : IceCandidate) (pc : RTCPeerConnection)
  : Outcome unit * RTCPeerConnection :=
  if pc_closed pc then (Throw InvalidStateError, pc)
  else match remoteDescription pc with
       | None => (Throw InvalidStateError, pc)
       | Some _ => (Return tt, with_candidates [c] pc)
       end.

(** The connection object after [close()]. *)
Definition closed_pc (pc : RTCPeerConnection) : RTCPeerConnection :=
  mkPC CsClosed (localDescription pc) (remoteDescription pc)
       (iceCandidates pc) (senders pc) (handlersFor pc).

(** The connection object after the browser moved it to state [st]. *)
Definition pc_in_state (st : ConnectionState) (pc : RTCPeerConnection)
  : RTCPeerConnection :=
  mkPC st (localDescription pc) (remoteDescription pc)
       (iceCandidates pc) (senders pc) (handlersFor pc).

(** Effect of a successful [send] on the channel object. *)
Definition delivered (data : string) (ch : RTCDataChannel) : RTCDataChannel :=
  mkDC (label ch) (ordered ch) (readyState ch) (sent ch ++ [data]) (owner ch)
       (chHandlersFor ch).

(** [send] refuses unless the channel is open. *)
Definition ch_send (data : string) (ch : RTCDataChannel)
  : Outcome unit * RTCDataChannel :=
  if is_open (readyState ch)
  then (Return tt, delivered data ch)
  else (Throw InvalidStateError, ch).

(** The channel object after [close()]; [close()] never throws. *)
Definition closed_ch (ch : RTCDataChannel) : RTCDataChannel :=
  mkDC (label ch) (ordered ch) RsClosed (sent ch) (owner ch) (chHandlersFor ch).

Definition ch_close (ch : RTCDataChannel) : Outcome unit * RTCDataChannel :=
  (Return tt, closed_ch ch).

(** What closing connection [r] does to a channel: closed if created on [r]. *)
Definition close_owned (r : nat) (ch : RTCDataChannel) : RTCDataChannel :=
  if decide (owner ch = r) then closed_ch ch else ch.

(** What closing the connections [rs] does to a channel. *)
Definition close_owned_by (rs : list nat) (ch : RTCDataChannel) : RTCDataChannel :=
  if decide (owner ch ∈ rs) then closed_ch ch else ch.

(** The browser reports the channel open. *)
Definition ch_open (ch : RTCDataChannel) : RTCDataChannel :=
  mkDC (label ch) (ordered ch) RsOpen (sent ch) (owner ch) (chHandlersFor ch).

(** [channel.onopen = ...; channel.onclose = ...; channel.onmessage = ...] *)
Definition ch_install_handlers (peerId : string) (ch : RTCDataChannel)
  : Outcome unit * RTCDataChannel :=
  (Return tt,
   mkDC (label ch) (ordered ch) (readyState ch) (sent ch) (owner ch) (Some peerId)).

(** What [addTrack] on every local track leaves in a new connection. *)
Definition local_tracks (stream : option MediaStream) : list Track :=
  match stream with
  | Some st => getTracks st
  | None => []
  end.

(** The connection object [createPeerConnection(peerId)] registers. *)
Definition fresh_pc (peerId : string) (stream : option MediaStream)
  : RTCPeerConnection :=
  mkPC CsNew None None [] (local_tracks stream) (Some peerId).

(** The channel object after [send] was given [messages], in that order. *)
Definition given (messages : list string) (ch : RTCDataChannel) : RTCDataChannel :=
  mkDC (label ch) (ordered ch) (readyState ch) (sent ch ++ messages) (owner ch)
       (chHandlersFor ch).

(** ** Senders and statistics of a connection *)

(** [senders.find(s => s.track?.kind === k)] followed by
    [sender.replaceTrack(newTrack)] on the sender found: the first track of
    kind [k] gives way to [newTrack]. *)
Fixpoint replace_first_of_kind (k : string) (newTrack : Track) (l : list Track)
  : list Track :=
  match l with
  | [] => []
  | t :: rest =>
      if decide (kind t = k) then newTrack :: rest
      else t :: replace_first_of_kind k newTrack rest
  end.

Definition has_kind (k : string) (l : list Track) : bool :=
  bool_decide (Exists (fun t => kind t = k) l).

(** One iteration of [replaceTrack] on a connection.  A closed connection
    has no senders; a sender refuses a track of another kind than its own
    ([TypeError]).  Senders without a track, which [s.track?.kind] never
    matches, are left out of [senders]. *)
Definition pc_replaceTrack (oldTrack newTrack : Track) (pc : RTCPeerConnection)
  : Outcome unit * RTCPeerConnection :=
  if pc_closed pc then (Return tt, pc)
  else if has_kind (kind oldTrack) (senders pc)
  then if decide (kind newTrack = kind oldTrack)
       then (Return tt,
             mkPC (connectionState pc) (localDescription pc) (remoteDescription pc)
                  (iceCandidates pc)
                  (replace_first_of_kind (kind oldTrack) newTrack (senders pc))
                  (handlersFor pc))
       else (Throw TypeError, pc)
  else (Return tt, pc).

(** The connection object after a [replaceTrack] between tracks of one kind
    went through. *)
Definition with_track_replaced (oldTrack newTrack : Track) (pc : RTCPeerConnection)
  : RTCPeerConnection :=
  if pc_closed pc then pc
  else mkPC (connectionState pc) (localDescription pc) (remoteDescription pc)
            (iceCandidates pc)
            (replace_first_of_kind (kind oldTrack) newTrack (senders pc))
            (handlersFor pc).

(** An entry of the report [pc.getStats()] resolves to.  Counters are
    integers (their sums stay exact in JavaScript below 2^53); the round
    trip time is a fraction of a second.  [None] is a member the report does
    not have. *)
Record StatsReport := {
  reportType : string;                       (* report.type *)
  reportState : option string;               (* report.state *)
  reportBytesReceived : option Z;            (* report.bytesReceived *)
  reportPacketsLost : option Z;              (* report.packetsLost *)
  reportBytesSent : option Z;                (* report.bytesSent *)
  reportRoundTripTime : option Qcanon.Qc     (* report.currentRoundTripTime *)
}.

(** The object [getStats] returns. *)
Record ConnectionStats := mkStats {
  bytesReceived : Z;
  bytesSent : Z;
  packetsLost : Z;
  roundTripTime : Qcanon.Qc
}.

Definition seconds (num : Z) (den : positive) : Qcanon.Qc :=
  Qcanon.Q2Qc (QArith_base.Qmake num den).

(** [x || 0] *)
Definition count_or_zero (x : option Z) : Z := default 0%Z x.
Definition time_or_zero (x : option Qcanon.Qc) : Qcanon.Qc := default (seconds 0 1) x.

Definition is_inbound (report : StatsReport) : bool :=
  bool_decide (reportType report = "inbound-rtp").
Definition is_outbound (report : StatsReport) : bool :=
  bool_decide (reportType report = "outbound-rtp").
Definition is_succeeded_pair (report : StatsReport) : bool :=
  bool_decide (reportType report = "candidate-pair") &&
  bool_decide (reportState report = Some "succeeded").

(** The body of [stats.forEach(report => ...)]. *)
Definition add_report (result : ConnectionStats) (report : StatsReport)
  : ConnectionStats :=
  let r1 :=
    if is_inbound report
    then mkStats (bytesReceived result + count_or_zero (reportBytesReceived report))
                 (bytesSent result)
                 (packetsLost result + count_or_zero (reportPacketsLost report))
                 (roundTripTime result)
    else result in
  let r2 :=
    if is_outbound report
    then mkStats (bytesReceived r1)
                 (bytesSent r1 + count_or_zero (reportBytesSent report))
                 (packetsLost r1) (roundTripTime r1)
    else r1 in
  if is_succeeded_pair report
  then mkStats (bytesReceived r2) (bytesSent r2) (packetsLost r2)
               (time_or_zero (reportRoundTripTime report))
  else r2.

(** The sum of a counter over the reports chosen by [sel], and the last
    report chosen by [sel]. *)
Definition total (sel : StatsReport -> bool) (counter : StatsReport -> option Z)
  (reports : list StatsReport) : Z :=
  foldr (fun report acc => (count_or_zero (counter report) + acc)%Z) 0%Z
        (List.filter sel reports).

Definition last_of (sel : StatsReport -> bool) (reports : list StatsReport)
  : option StatsReport :=
  last (List.filter sel reports).

(** ** Signaling messages (class LocalSignaling)

    What travels on the [BroadcastChannel]: [{ type, from, to, data }].  The
    type and the data come together: a message of type [offer] carries a
    session description, and so on. *)

Inductive Signal :=
| SigJoin (peerId : string)             (* 'join', { peerId } *)
| SigOffer (d : SessionDescription)     (* 'offer' *)
| SigAnswer (d : SessionDescription)    (* 'answer' *)
| SigIceCandidate (c : IceCandidate)    (* 'ice-candidate' *)
| SigOther (type : string).             (* a type nobody listens to *)

Record SignalingMessage := mkMsg {
  msgFrom : string;
  msgTo : option string;                (* [None] is [null] *)
  msgBody : Signal
}.

(** [send(type, data, to = null)]: what the endpoint [self] posts. *)
Definition LocalSignaling_send (self : string) (body : Signal) (to : option string)
  : SignalingMessage :=
  mkMsg self to body.

(** [broadcast(type, data)] *)
Definition LocalSignaling_broadcast (self : string) (body : Signal)
  : SignalingMessage :=
  LocalSignaling_send self body None.

(** [to && to !== this.peerId]: an empty string is as good as [null]. *)
Definition addressed_elsewhere (self : string) (to : option string) : bool :=
  match to with
  | None => false
  | Some t => negb (bool_decide (t = "")) && negb (bool_decide (t = self))
  end.

(** [channel.onmessage] of the endpoint [self]: whether the message reaches
    [emit]. *)
Definition LocalSignaling_accepts (self : string) (m : SignalingMessage) : bool :=
  if addressed_elsewhere self (msgTo m) then false
  else if bool_decide (msgFrom m = self) then false
  else true.

Section Manager.

(** State of the external collaborators (UI, chat, whiteboard, signaling)
    that registered callbacks act on. *)
Context {W : Type}.

(** [JSON.stringify] on a JSON value, and [JSON.parse] ([None]: SyntaxError). *)
Variable JSON_stringify : JSON -> string.
Variable JSON_parse : string -> option JSON.

(** The SDP text the browser generates for an offer or an answer. *)
Variable sdp_of : SdpType -> RTCPeerConnection -> string.

(** A callback receives the event object; it returns or throws, and may
    change its collaborator's state.  Callbacks do not call back into the
    manager. *)
Definition Callback : Type := EventData -> W -> Outcome unit * W.

(** ** State: the manager's fields and the store they refer to *)

Record State := mkState {
  pcs : list RTCPeerConnection;          (* store: connection objects *)
  chans : list RTCDataChannel;           (* store: channel objects *)
  peerConnections : gmap string nat;     (* this.peerConnections *)
  dataChannels : gmap string nat;        (* this.dataChannels *)
  localStream : option MediaStream;      (* this.localStream *)
  callbacks : gmap string (list Callback);  (* this.callbacks *)
  world : W;                             (* collaborators *)
  console : list (string * JsError);     (* console.error lines *)
  emitted : list (string * EventData)    (* history of [emit] calls *)
}.

Definition set_pcs (f : list RTCPeerConnection -> list RTCPeerConnection) (s : State) :=
  mkState (f (pcs s)) (chans s) (peerConnections s) (dataChannels s)
          (localStream s) (callbacks s) (world s) (console s) (emitted s).
Definition set_chans (f : list RTCDataChannel -> list RTCDataChannel) (s : State) :=
  mkState (pcs s) (f (chans s)) (peerConnections s) (dataChannels s)
          (localStream s) (callbacks s) (world s) (console s) (emitted s).
Definition set_peerConnections (f : gmap string nat -> gmap string nat) (s : State) :=
  mkState (pcs s) (chans s) (f (peerConnections s)) (dataChannels s)
          (localStream s) (callbacks s) (world s) (console s) (emitted s).
Definition set_dataChannels (f : gmap string nat -> gmap string nat) (s : State) :=
  mkState (pcs s) (chans s) (peerConnections s) (f (dataChannels s))
          (localStream s) (callbacks s) (world s) (console s) (emitted s).
Definition set_localStream (v : option MediaStream) (s : State) :=
  mkState (pcs s) (chans s) (peerConnections s) (dataChannels s)
          v (callbacks s) (world s) (console s) (emitted s).
Definition set_callbacks
  (f : gmap string (list Callback) -> gmap string (list Callback)) (s : State) :=
  mkState (pcs s) (chans s) (peerConnections s) (dataChannels s)
          (localStream s) (f (callbacks s)) (world s) (console s) (emitted s).
Definition set_world (w : W) (s : State) :=
  mkState (pcs s) (chans s) (peerConnections s) (dataChannels s)
          (localStream s) (callbacks s) w (console s) (emitted s).
Definition set_console (f : list (string * JsError) -> list (string * JsError)) (s : State) :=
  mkState (pcs s) (chans s) (peerConnections s) (dataChannels s)
          (localStream s) (callbacks s) (world s) (f (console s)) (emitted s).
Definition set_emitted (f : list (string * EventData) -> list (string * EventData)) (s : State) :=
  mkState (pcs s) (chans s) (peerConnections s) (dataChannels s)
          (localStream s) (callbacks s) (world s) (console s) (f (emitted s)).

(** [new RTCManager(settings)] *)
Definition constructor (w : W) : State :=
  mkState [] [] ∅ ∅ None ∅ w [] [].

(** ** Computations: state passing with exceptions *)

Definition M (A : Type) : Type := State -> Outcome A * State.

Definition ret {A} (a : A) : M A := fun s => (Return a, s).
Definition throw {A} (e : JsError) : M A := fun s => (Throw e, s).
Definition bind {A B} (m : M A) (k : A -> M B) : M B :=
  fun s => match m s with
           | (Return a, s') => k a s'
           | (Throw e, s') => (Throw e, s')
           end.
Definition gets {A} (f : State -> A) : M A := fun s => (Return (f s), s).
Definition modify (f : State -> State) : M unit := fun s => (Return tt, f s).

(** [try { m } catch (e) { h e }] *)
Definition try_catch {A} (m : M A) (h : JsError -> M A) : M A :=
  fun s => match m s with
           | (Return a, s') => (Return a, s')
           | (Throw e, s') => h e s'
           end.

Notation "x <- m ;; k" := (bind m (fun x => k))
  (at level 100, m at next level, right associativity).
Notation "m ;;; k" := (bind m (fun _ => k))
  (at level 100, right associativity).

(** [items.forEach(body)] and [for (const x of items) body]: the first throw
    ends the loop. *)
Fixpoint forEach {A} (items : list A) (body : A -> M unit) : M unit :=
  match items with
  | [] => ret tt
  | x :: rest => body x ;;; forEach rest body
  end.

(** Calling a method on the connection object behind reference [r]. *)
Definition pc_call {A} (r : nat)
  (method : RTCPeerConnection -> Outcome A * RTCPeerConnection) : M A :=
  fun s => match pcs s !! r with
           | Some pc => let '(o, pc') := method pc in (o, set_pcs (<[r := pc']>) s)
           | None => (Throw DanglingRef, s)
           end.

Definition ch_call {A} (r : nat)
  (method : RTCDataChannel -> Outcome A * RTCDataChannel) : M A :=
  fun s => match chans s !! r with
           | Some ch => let '(o, ch') := method ch in (o, set_chans (<[r := ch']>) s)
           | None => (Throw DanglingRef, s)
           end.

(** Reading a property of an object. *)
Definition pc_get {A} (r : nat) (prop : RTCPeerConnection -> A) : M A :=
  fun s => match pcs s !! r with
           | Some pc => (Return (prop pc), s)
           | None => (Throw DanglingRef, s)
           end.
Definition ch_get {A} (r : nat) (prop : RTCDataChannel -> A) : M A :=
  fun s => match chans s !! r with
           | Some ch => (Return (prop ch), s)
           | None => (Throw DanglingRef, s)
           end.

(** Allocation of a new object; the reference is its index in the store. *)
Definition new_RTCPeerConnection : M nat :=
  fun s => (Return (length (pcs s)), set_pcs (fun l => l ++ [pc_new]) s).

(** A new channel object on connection [r]. *)
Definition new_RTCDataChannel (r : nat) (lbl : string) : M nat :=
  fun s => (Return (length (chans s)),
            set_chans (fun l => l ++ [mkDC lbl true RsConnecting [] r None]) s).

(** [pc.createOffer(...)], [pc.createAnswer()], [pc.createDataChannel(...)] *)
Definition pc_createOffer (pc : RTCPeerConnection)
  : Outcome SessionDescription * RTCPeerConnection :=
  if pc_closed pc then (Throw InvalidStateError, pc)
  else (Return {| sdType := SdpOffer; sdp := sdp_of SdpOffer pc |}, pc).

Definition pc_createAnswer (pc : RTCPeerConnection)
  : Outcome SessionDescription * RTCPeerConnection :=
  if pc_closed pc then (Throw InvalidStateError, pc)
  else match remoteDescription pc with
       | None => (Throw InvalidStateError, pc)
       | Some _ => (Return {| sdType := SdpAnswer; sdp := sdp_of SdpAnswer pc |}, pc)
       end.

Definition pc_createDataChannel (r : nat) (lbl : string) : M nat :=
  closed <- pc_get r pc_closed ;;
  if (closed : bool) then throw InvalidStateError else new_RTCDataChannel r lbl.

(** [pc.close()]: the connection is closed, and with it the channels created
    on it; never throws. *)
Definition pc_close (r : nat) : M unit :=
  pc_call r (fun pc => (Return tt, closed_pc pc)) ;;;
  modify (set_chans (fmap (close_owned r))).

(** ** RTCManager *)

Definition setLocalStream (stream : MediaStream) : M unit :=
  modify (set_localStream (Some stream)).

(** [on(event, callback)] *)
Definition on (event : string) (callback : Callback) : M unit :=
  modify (set_callbacks (fun cbs =>
    let cbs1 := match cbs !! event with
                | None => <[event := []]> cbs
                | Some _ => cbs
                end in
    alter (fun l => l ++ [callback]) event cbs1)).

Definition run_callback (data : EventData) (cb : Callback) : M unit :=
  fun s => let '(o, w) := cb data (world s) in (o, set_world w s).

(** [emit(event, data)].  The first line records the emission in [emitted],
    a history the JavaScript object does not keep; only statements about
    which events were emitted read it. *)
Definition emit (event : string) (data : EventData) : M unit :=
  modify (set_emitted (fun l => l ++ [(event, data)])) ;;;
  cbs <- gets (fun s => default [] (callbacks s !! event)) ;;
  forEach cbs (run_callback data).

(** [createPeerConnection(peerId)].  The handlers it installs are the
    functions [pc_onicecandidate], [pc_onconnectionstatechange] and
    [pc_ondatachannel] below, closed over [peerId] and the new object
    ([oniceconnectionstatechange] and [ontrack] only emit and are left
    out). *)
Definition createPeerConnection (peerId : string) : M nat :=
  pc <- new_RTCPeerConnection ;;
  stream <- gets localStream ;;
  match stream with
  | Some st => forEach (getTracks st) (fun track => pc_call pc (pc_addTrack track))
  | None => ret tt
  end ;;;
  pc_call pc (pc_install_handlers peerId) ;;;
  modify (set_peerConnections (<[peerId := pc]>)) ;;;
  ret pc.

(** [setupDataChannel(peerId, channel)]; the handlers it installs on the
    channel are [channel_onopen], [channel_onclose] and [channel_onmessage]
    below, closed over [peerId]. *)
Definition setupDataChannel (peerId : string) (channel : nat) : M unit :=
  ch_call channel (ch_install_handlers peerId) ;;;
  modify (set_dataChannels (<[peerId := channel]>)).

(** [createDataChannel(peerId, label = 'nextmeet')]; [None] is [null]. *)
Definition createDataChannel (peerId : string) (lbl : string) : M (option nat) :=
  pc <- gets (fun s => peerConnections s !! peerId) ;;
  match pc with
  | None => ret None
  | Some pc =>
      channel <- pc_createDataChannel pc lbl ;;
      setupDataChannel peerId channel ;;;
      ret (Some channel)
  end.

(** [createOffer(peerId)].  [pc] is a [const]: when the lookup gives
    [undefined] a connection is created and registered but [pc] stays
    [undefined], and [pc.createOffer] throws. *)
Definition createOffer (peerId : string) : M SessionDescription :=
  pc <- gets (fun s => peerConnections s !! peerId) ;;
  match pc with
  | None => createPeerConnection peerId ;;; ret tt
  | Some _ => ret tt
  end ;;;
  match pc with
  | None => throw TypeError
  | Some pc =>
      offer <- pc_call pc pc_createOffer ;;
      pc_call pc (pc_setLocalDescription offer) ;;;
      ret offer
  end.

(** [handleOffer(peerId, offer)] *)
Definition handleOffer (peerId : string) (offer : SessionDescription)
  : M SessionDescription :=
  pc0 <- gets (fun s => peerConnections s !! peerId) ;;
  pc <- match pc0 with
        | None => createPeerConnection peerId
        | Some pc => ret pc
        end ;;
  pc_call pc (pc_setRemoteDescription offer) ;;;
  answer <- pc_call pc pc_createAnswer ;;
  pc_call pc (pc_setLocalDescription answer) ;;;
  ret answer.

(** [handleAnswer(peerId, answer)] *)
Definition handleAnswer (peerId : string) (answer : SessionDescription) : M unit :=
  pc <- gets (fun s => peerConnections s !! peerId) ;;
  match pc with
  | None => ret tt
  | Some pc => pc_call pc (pc_setRemoteDescription answer)
  end.

Definition console_error (msg : string) (error : JsError) : M unit :=
  modify (set_console (fun l => l ++ [(msg, error)])).

(** [addIceCandidate(peerId, candidate)] *)
Definition addIceCandidate (peerId : string) (c : IceCandidate) : M unit :=
  pc <- gets (fun s => peerConnections s !! peerId) ;;
  match pc with
  | None => ret tt
  | Some pc =>
      try_catch (pc_call pc (pc_addIceCandidate c))
                (fun error => console_error "Failed to add ICE candidate:" error)
  end.

(** [sendMessage(peerId, message)] *)
Definition sendMessage (peerId : string) (message : JSON) : M bool :=
  channel <- gets (fun s => dataChannels s !! peerId) ;;
  match channel with
  | None => ret false
  | Some channel =>
      st <- ch_get channel readyState ;;
      if is_open st
      then ch_call channel (ch_send (JSON_stringify message)) ;;; ret true
      else ret false
  end.

(** [broadcast(message)].  A JavaScript [Map] is iterated in insertion
    order; [map_to_list] lists every entry once, in an order of its own.
    The body touches only the channel of its entry. *)
Definition broadcast (message : JSON) : M unit :=
  entries <- gets (fun s => map_to_list (dataChannels s)) ;;
  forEach entries (fun '(peerId, channel) =>
    st <- ch_get channel readyState ;;
    if is_open st
    then ch_call channel (ch_send (JSON_stringify message))
    else ret tt).

(** [removePeer(peerId)] *)
Definition removePeer (peerId : string) : M unit :=
  pc <- gets (fun s => peerConnections s !! peerId) ;;
  match pc with
  | Some pc =>
      pc_close pc ;;;
      modify (set_peerConnections (delete peerId))
  | None => ret tt
  end ;;;
  channel <- gets (fun s => dataChannels s !! peerId) ;;
  match channel with
  | Some channel =>
      ch_call channel ch_close ;;;
      modify (set_dataChannels (delete peerId))
  | None => ret tt
  end.

(** [handleDisconnection(peerId)] *)
Definition handleDisconnection (peerId : string) : M unit :=
  emit "peerDisconnected" (PeerEvent peerId) ;;;
  removePeer peerId.

(** [closeAll()] *)
Definition closeAll : M unit :=
  entries <- gets (fun s => map_to_list (peerConnections s)) ;;
  forEach entries (fun '(peerId, pc) => pc_close pc) ;;;
  modify (set_peerConnections (fun _ => ∅)) ;;;
  modify (set_dataChannels (fun _ => ∅)).

(** [replaceTrack(oldTrack, newTrack)] *)
Definition replaceTrack (oldTrack newTrack : Track) : M unit :=
  entries <- gets (fun s => map_to_list (peerConnections s)) ;;
  forEach entries (fun '(peerId, pc) =>
    pc_call pc (pc_replaceTrack oldTrack newTrack)).

(** [getStats(peerId)]; [None] is [null].  [stats_of] is what
    [pc.getStats()] resolves to. *)
Definition getStats (stats_of : RTCPeerConnection -> list StatsReport)
  (peerId : string) : M (option ConnectionStats) :=
  pc <- gets (fun s => peerConnections s !! peerId) ;;
  match pc with
  | None => ret None
  | Some pc =>
      stats <- pc_get pc stats_of ;;
      ret (Some (foldl add_report (mkStats 0 0 0 (seconds 0 1)) stats))
  end.

(** ** Handlers installed on the browser's objects *)

(** [pc.onicecandidate]; [None] is the end-of-candidates event. *)
Definition pc_onicecandidate (peerId : string) (c : option IceCandidate) : M unit :=
  match c with
  | Some c => emit "iceCandidate" (IceCandidateEvent peerId c)
  | None => ret tt
  end.

Definition failed_or_disconnected (st : ConnectionState) : bool :=
  match st with CsFailed | CsDisconnected => true | _ => false end.

(** [pc.onconnectionstatechange], for the connection object [pc] the handler
    was installed on. *)
Definition pc_onconnectionstatechange (peerId : string) (pc : nat) : M unit :=
  st <- pc_get pc connectionState ;;
  emit "connectionStateChange" (StateEvent peerId st) ;;;
  st' <- pc_get pc connectionState ;;
  if failed_or_disconnected st'
  then handleDisconnection peerId
  else ret tt.

(** [pc.ondatachannel]; [channel] is [event.channel]. *)
Definition pc_ondatachannel (peerId : string) (channel : nat) : M unit :=
  setupDataChannel peerId channel.

Definition channel_onopen (peerId : string) : M unit :=
  emit "dataChannelOpen" (PeerEvent peerId).

Definition channel_onclose (peerId : string) : M unit :=
  emit "dataChannelClose" (PeerEvent peerId).

(** [channel.onmessage]: the [try] block holds both the parse and the
    emission of the parsed message. *)
Definition channel_onmessage (peerId : string) (data : Payload) : M unit :=
  try_catch
    (parsed <- match JSON_parse (payload_toString data) with
               | Some v => ret v
               | None => throw SyntaxError
               end ;;
     emit "dataChannelMessage" (MessageEvent peerId parsed))
    (fun _ => emit "dataChannelBinary" (BinaryEvent peerId data)).

(** ** What the browser does

    An event on a connection object runs the handler installed on it, with
    the peer id that handler closes over; a closed connection fires no
    events. *)

Definition when_live (r : nat) (k : string -> M unit) : M unit :=
  closed <- pc_get r pc_closed ;;
  h <- pc_get r handlersFor ;;
  match closed, h with
  | false, Some peerId => k peerId
  | _, _ => ret tt
  end.

(** The transport moves connection [r] to state [st]. *)
Definition transport_reports (r : nat) (st : ConnectionState) : M unit :=
  when_live r (fun peerId =>
    pc_call r (fun pc => (Return tt, pc_in_state st pc)) ;;;
    pc_onconnectionstatechange peerId r).

(** The ICE agent of connection [r] found a local candidate. *)
Definition ice_gathers (r : nat) (c : option IceCandidate) : M unit :=
  when_live r (fun peerId => pc_onicecandidate peerId c).

(** The remote side opened a channel on connection [r]. *)
Definition remote_opens_channel (r : nat) (lbl : string) : M unit :=
  when_live r (fun peerId =>
    channel <- new_RTCDataChannel r lbl ;;
    pc_ondatachannel peerId channel).

(** An event on a channel object runs the handler installed on it. *)
Definition when_set_up (c : nat) (k : string -> M unit) : M unit :=
  h <- ch_get c chHandlersFor ;;
  match h with
  | Some peerId => k peerId
  | None => ret tt
  end.

(** Channel [c], still connecting, becomes open. *)
Definition channel_opens (c : nat) : M unit :=
  st <- ch_get c readyState ;;
  match st with
  | RsConnecting =>
      ch_call c (fun ch => (Return tt, ch_open ch)) ;;;
      when_set_up c channel_onopen
  | _ => ret tt
  end.

(** A message arrives on the open channel [c]. *)
Definition channel_receives (c : nat) (data : Payload) : M unit :=
  st <- ch_get c readyState ;;
  if is_open st
  then when_set_up c (fun peerId => channel_onmessage peerId data)
  else ret tt.

(** ** Runs of the manager *)

Inductive Step :=
| CallSetLocalStream (stream : MediaStream)
| CallOn (event : string) (callback : Callback)
| CallCreatePeerConnection (peerId : string)
| CallCreateDataChannel (peerId : string) (lbl : string)
| CallCreateOffer (peerId : string)
| CallHandleOffer (peerId : string) (offer : SessionDescription)
| CallHandleAnswer (peerId : string) (answer : SessionDescription)
| CallAddIceCandidate (peerId : string) (c : IceCandidate)
| CallSendMessage (peerId : string) (message : JSON)
| CallBroadcast (message : JSON)
| CallRemovePeer (peerId : string)
| CallCloseAll
| TransportReports (r : nat) (st : ConnectionState)
| IceGathers (r : nat) (c : option IceCandidate)
| RemoteOpensChannel (r : nat) (lbl : string)
| ChannelOpens (c : nat)
| ChannelReceives (c : nat) (data : Payload).

Definition step (t : Step) (s : State) : State :=
  match t with
  | CallSetLocalStream stream => snd (setLocalStream stream s)
  | CallOn event callback => snd (on event callback s)
  | CallCreatePeerConnection p => snd (createPeerConnection p s)
  | CallCreateDataChannel p lbl => snd (createDataChannel p lbl s)
  | CallCreateOffer p => snd (createOffer p s)
  | CallHandleOffer p d => snd (handleOffer p d s)
  | CallHandleAnswer p d => snd (handleAnswer p d s)
  | CallAddIceCandidate p c => snd (addIceCandidate p c s)
  | CallSendMessage p m => snd (sendMessage p m s)
  | CallBroadcast m => snd (broadcast m s)
  | CallRemovePeer p => snd (removePeer p s)
  | CallCloseAll => snd (closeAll s)
  | TransportReports r st => snd (transport_reports r st s)
  | IceGathers r c => snd (ice_gathers r c s)
  | RemoteOpensChannel r lbl => snd (remote_opens_channel r lbl s)
  | ChannelOpens c => snd (channel_opens c s)
  | ChannelReceives c data => snd (channel_receives c data s)
  end.

(** The state after the steps [ts], first to last. *)
Definition run (ts : list Step) (s : State) : State :=
  foldl (fun s t => step t s) s ts.

(** ** The registry invariant

    Every registered connection carries the handlers of the peer id it is
    registered under.  No channel is registered under two peer ids.  Every
    registered channel is an object of the store, created on a connection of
    the store, and not on the registered connection of another peer id. *)

Definition bound_ok (s : State) : Prop :=
  map_Forall (fun p r => handlersFor <$> pcs s !! r = Some (Some p))
             (peerConnections s).

Definition refs_distinct (m : gmap string nat) : Prop :=
  map_Forall (fun p r => map_Forall (fun q r' => r = r' -> p = q) m) m.

Definition owner_ok_at (s : State) (q : string) (c : nat) : Prop :=
  match chans s !! c with
  | Some ch =>
      is_Some (pcs s !! owner ch) /\
      map_Forall (fun p r => r = owner ch -> p = q) (peerConnections s)
  | None => False
  end.

Definition owners_ok (s : State) : Prop :=
  map_Forall (owner_ok_at s) (dataChannels s).

Definition wf (s : State) : Prop :=
  bound_ok s /\ refs_distinct (dataChannels s) /\ owners_ok s.

#[export] Instance owner_ok_at_dec s q c : Decision (owner_ok_at s q c).
Proof. unfold owner_ok_at. destruct (chans s !! c); apply _. Defined.

#[export] Instance wf_dec (s : State) : Decision (wf s).
Proof. unfold wf, bound_ok, refs_distinct, owners_ok. apply _. Defined.

(** The callbacks registered for an event, in the order [emit] runs them. *)
Definition registered (event : string) (s : State) : list Callback :=
  default [] (callbacks s !! event).

(** A callback that returns whatever it is given. *)
Definition returns_normally (cb : Callback) : Prop :=
  forall data w, exists w', cb data w = (Return tt, w').

(** [all_return data cbs w w']: called one after the other on [data], from
    collaborator state [w], the callbacks [cbs] all return, leaving [w']. *)
Inductive all_return (data : EventData) : list Callback -> W -> W -> Prop :=
| all_return_nil w : all_return data [] w w
| all_return_cons cb cbs w w1 w2 :
    cb data w = (Return tt, w1) ->
    all_return data cbs w1 w2 ->
    all_return data (cb :: cbs) w w2.

(** [sub_shape s s']: the registry of [s'] is part of the registry of [s],
    and the objects of [s'] are those of [s], with their handlers and
    owners. *)
Definition sub_shape (s s' : State) : Prop :=
  peerConnections s' ⊆ peerConnections s /\
  dataChannels s' ⊆ dataChannels s /\
  (forall r, handlersFor <$> pcs s' !! r = handlersFor <$> pcs s !! r) /\
  (forall c, owner <$> chans s' !! c = owner <$> chans s !! c).

(** A computation that registers nothing and creates no object. *)
Definition keeps_shape {A} (m : M A) : Prop :=
  forall s, sub_shape s (snd (m s)).

(** A computation that keeps the invariant. *)
Definition preserves_wf {A} (m : M A) : Prop :=
  forall s, wf s -> wf (snd (m s)).

End Manager.

(** ** The meeting page (src/recording.js, DOMContentLoaded handler)

    The page owns one [RTCManager] and one [LocalSignaling]; the
    collaborators' state is the signaling endpoint: its peer id and the
    messages it has posted.  The listeners of the page are [async]; as for
    the manager's own [async] methods, each is run to completion before the
    next event is handled. *)

Record Page := mkPage {
  selfId : string;                      (* signaling.peerId *)
  outbox : list SignalingMessage        (* channel.postMessage calls *)
}.

(** The endpoint after it posted [body] to the peer [to]. *)
Definition posted (body : Signal) (to : string) (w : Page) : Page :=
  mkPage (selfId w) (outbox w ++ [mkMsg (selfId w) (Some to) body]).

Section MeetingPage.

Variable JSON_stringify : JSON -> string.
Variable JSON_parse : string -> option JSON.
Variable sdp_of : SdpType -> RTCPeerConnection -> string.

Local Notation "x <- m ;; k" := (bind m (fun x => k))
  (at level 100, m at next level, right associativity).
Local Notation "m ;;; k" := (bind m (fun _ => k))
  (at level 100, right associativity).

(** [signaling.send(type, data, to)] *)
Definition signaling_send (body : Signal) (to : option string) : M (W := Page) unit :=
  modify (fun s =>
    set_world
      (mkPage (selfId (world s))
              (outbox (world s) ++ [LocalSignaling_send (selfId (world s)) body to]))
      s).

(** [signaling.broadcast('join', { peerId: signaling.peerId })] *)
Definition announce : M (W := Page) unit :=
  self <- gets (fun s => selfId (world s)) ;;
  signaling_send (SigJoin self) None.

(** [signaling.on('join', async ({ from }) => ...)] *)
Definition on_join (from : string) : M (W := Page) unit :=
  createPeerConnection from ;;;
  createDataChannel from "nextmeet" ;;;
  offer <- createOffer sdp_of from ;;
  signaling_send (SigOffer offer) (Some from).

(** [signaling.on('offer', async ({ from, data }) => ...)] *)
Definition on_offer (from : string) (data : SessionDescription) : M (W := Page) unit :=
  answer <- handleOffer sdp_of from data ;;
  signaling_send (SigAnswer answer) (Some from).

(** [signaling.on('answer', async ({ from, data }) => ...)] *)
Definition on_answer (from : string) (data : SessionDescription) : M (W := Page) unit :=
  handleAnswer from data.

(** [signaling.on('ice-candidate', async ({ from, data }) => ...)] *)
Definition on_ice_candidate (from : string) (data : IceCandidate) : M (W := Page) unit :=
  addIceCandidate from data.

(** [rtc.on('iceCandidate', ({ peerId, candidate }) => ...)] *)
Definition relay_candidate : Callback (W := Page) :=
  fun ev w =>
    match ev with
    | IceCandidateEvent peerId c =>
        (Return tt,
         mkPage (selfId w)
                (outbox w ++ [LocalSignaling_send (selfId w) (SigIceCandidate c)
                                (Some peerId)]))
    | _ => (Return tt, w)
    end.

(** An [async] listener called by [emit]: the promise it returns is dropped,
    so its rejection reaches nobody. *)
Definition detached (m : M (W := Page) unit) : M (W := Page) unit :=
  fun s => (Return tt, snd (m s)).

(** [channel.onmessage] of the page's [LocalSignaling], with the four
    listeners the page registers. *)
Definition page_receives (m : SignalingMessage) : M (W := Page) unit :=
  self <- gets (fun s => selfId (world s)) ;;
  if LocalSignaling_accepts self m
  then match msgBody m with
       | SigJoin _ => detached (on_join (msgFrom m))
       | SigOffer d => detached (on_offer (msgFrom m) d)
       | SigAnswer d => detached (on_answer (msgFrom m) d)
       | SigIceCandidate c => detached (on_ice_candidate (msgFrom m) c)
       | SigOther _ => ret tt
       end
  else ret tt.

(** A page right after its managers are built and its listener for local
    candidates is registered. *)
Definition new_page (self : string) : State (W := Page) :=
  snd (on "iceCandidate" relay_candidate (constructor (mkPage self []))).

(** The message the page posted last. *)
Definition last_posted (s : State (W := Page)) : option SignalingMessage :=
  last (outbox (world s)).

(** What happens on a page: a message arrives on the signaling channel, the
    page announces itself, the manager is called or one of its browser
    objects fires an event, a track is replaced. *)
Inductive PageEvent :=
| Receives (m : SignalingMessage)
| Announces
| Does (t : Step (W := Page))
| ReplacesTrack (oldTrack newTrack : Track).

Definition page_step (ev : PageEvent) (s : State (W := Page)) : State :=
  match ev with
  | Receives m => snd (page_receives m s)
  | Announces => snd (announce s)
  | Does t => step JSON_stringify JSON_parse sdp_of t s
  | ReplacesTrack oldTrack newTrack => snd (replaceTrack oldTrack newTrack s)
  end.

(** The page after the events [evs], first to last. *)
Definition page_run (evs : list PageEvent) (s : State (W := Page)) : State :=
  foldl (fun s ev => page_step ev s) s evs.

End MeetingPage.

(** ** A concrete instance, for the examples *)

Module Demo.

(** The collaborators' state is the list of callback labels that ran. *)
Definition World : Type := list nat.

Definition dq : string := String (Ascii.ascii_of_nat 34) EmptyString.

(** [JSON.stringify] without string escapes. *)
Fixpoint stringify (v : JSON) : string :=
  match v with
  | JNull => "null"
  | JBool true => "true"
  | JBool false => "false"
  | JNum z => pretty z
  | JStr s => dq +:+ s +:+ dq
  | JArr items =>
      "[" +:+
      (fix go (l : list JSON) : string :=
         match l with
         | [] => ""
         | x :: l' =>
             match l' with
             | [] => stringify x
             | _ => stringify x +:+ "," +:+ go l'
             end
         end) items +:+ "]"
  | JObj fields =>
      "{" +:+
      (fix go (l : list (string * JSON)) : string :=
         match l with
         | [] => ""
         | (k, x) :: l' =>
             let kv := dq +:+ k +:+ dq +:+ ":" +:+ stringify x in
             match l' with
             | [] => kv
             | _ => kv +:+ "," +:+ go l'
             end
         end) fields +:+ "}"
  end.

(** The control messages of the examples. *)
Definition chat_hi : JSON := JObj [("type", JStr "chat"); ("text", JStr "hi")].
Definition file_info : JSON :=
  JObj [("type", JStr "file-info"); ("name", JStr "notes.txt")].

(** [JSON.parse] restricted to the texts of these messages; any other text is
    refused. *)
Definition parse (s : string) : option JSON :=
  List.find (fun v => bool_decide (stringify v = s)) [chat_hi; file_info].

Definition sdp_text (t : SdpType) (pc : RTCPeerConnection) : string :=
  match t with SdpOffer => "offer-sdp" | SdpAnswer => "answer-sdp" end.

(** A callback that records its label and returns. *)
Definition logs (n : nat) : Callback (W := World) :=
  fun _ w => (Return tt, w ++ [n]).

(** A callback that records its label and throws. *)
Definition fails (n : nat) : Callback (W := World) :=
  fun _ w => (Throw (UserError n), w ++ [n]).

(** The [type] field of a parsed message. *)
Definition message_type (v : JSON) : option string :=
  match v with
  | JObj fields =>
      match List.find (fun kv => bool_decide (fst kv = "type")) fields with
      | Some (_, JStr t) => Some t
      | _ => None
      end
  | _ => None
  end.

(** A listener for parsed messages that shows chat texts (label 1) and has
    no working code for [file-info]: there it throws. *)
Definition chat_listener : Callback (W := World) :=
  fun ev w =>
    match ev with
    | MessageEvent _ v =>
        if bool_decide (message_type v = Some "chat") then (Return tt, w ++ [1])
        else if bool_decide (message_type v = Some "file-info") then (Throw TypeError, w)
        else (Return tt, w)
    | _ => (Return tt, w)
    end.

Definition s0 : State (W := World) := constructor [].

Definition cand (n : nat) : IceCandidate :=
  {| candidate := "candidate"; sdpMid := "0"; sdpMLineIndex := n |}.

Definition offer : SessionDescription := {| sdType := SdpOffer; sdp := "remote-offer" |}.

(** Run a computation for its final state. *)
Definition exec {A} (m : M (W := World) A) (s : State) : State := snd (m s).

(** Two listeners on one event: the first throws, the second records. *)
Definition two_listeners : State (W := World) :=
  exec (on "peerDisconnected" (logs 2)) (exec (on "peerDisconnected" (fails 1)) s0).

(** A meeting with two peers: B's channel is open, C's is still connecting;
    nobody is registered as D. *)
Definition meeting : State (W := World) :=
  exec (createDataChannel "C" "nextmeet")
    (exec (createPeerConnection "C")
       (exec (channel_opens 0)
          (exec (createDataChannel "B" "nextmeet")
             (exec (createPeerConnection "B") s0)))).

(** The meeting with a recording [peerDisconnected] listener. *)
Definition meeting_watched : State (W := World) :=
  exec (on "peerDisconnected" (logs 7)) meeting.

(** The same with a [connectionStateChange] listener that throws. *)
Definition meeting_listener_throws : State (W := World) :=
  exec (on "connectionStateChange" (fails 1)) meeting_watched.

(** B's connection was created twice: the registry names the second object,
    B's open channel belongs to the first. *)
Definition replaced : State (W := World) :=
  exec (createPeerConnection "B")
    (exec (channel_opens 0)
       (exec (createDataChannel "B" "nextmeet")
          (exec (createPeerConnection "B") s0))).

(** The chat listener and a recording listener for binary payloads. *)
Definition chatting : State (W := World) :=
  exec (on "dataChannelBinary" (logs 2))
    (exec (on "dataChannelMessage" chat_listener) meeting).

(** Peer B sent an offer and its connection is being established. *)
Definition answering : State (W := World) :=
  exec (transport_reports 0 CsConnecting) (exec (handleOffer sdp_text "B" offer) s0).

(** B's connection exists, two of its candidates arrived before its offer. *)
Definition early_candidates : State (W := World) :=
  exec (addIceCandidate "B" (cand 2))
    (exec (addIceCandidate "B" (cand 1))
       (exec (createPeerConnection "B") s0)).


(** Local tracks: a microphone, a camera and a shared screen. *)
Definition mic : Track := {| trackId := 1; kind := "audio" |}.
Definition camera : Track := {| trackId := 2; kind := "video" |}.
Definition screen : Track := {| trackId := 3; kind := "video" |}.

(** Connections to B and C created with microphone and camera on. *)
Definition streaming : State (W := World) :=
  exec (createPeerConnection "C")
    (exec (createPeerConnection "B")
       (exec (setLocalStream {| getTracks := [mic; camera] |}) s0)).

(** A report of the browser: two incoming streams, the second without loss
    counter, one outgoing stream, a candidate pair that failed and one that
    succeeded with a round trip of 40 ms, and the transport. *)
Definition report (type : string) (state : option string)
  (received lost sent_bytes : option Z) (rtt : option Qcanon.Qc) : StatsReport :=
  {| reportType := type; reportState := state; reportBytesReceived := received;
     reportPacketsLost := lost; reportBytesSent := sent_bytes;
     reportRoundTripTime := rtt |}.

Definition stats (pc : RTCPeerConnection) : list StatsReport :=
  [ report "inbound-rtp" None (Some 1000%Z) (Some 2%Z) None None;
    report "inbound-rtp" None (Some 500%Z) None None None;
    report "outbound-rtp" None None None (Some 700%Z) None;
    report "candidate-pair" (Some "failed") None None None (Some (seconds 9 1));
    report "candidate-pair" (Some "succeeded") None None None (Some (seconds 1 25));
    report "transport" None (Some 9999%Z) None (Some 9999%Z) None ].

(** The same entries as another browser lists them. *)
Definition stats_reversed (pc : RTCPeerConnection) : list StatsReport :=
  reverse (stats pc).

(** Two pages of one room, just loaded. *)
Definition alice : State (W := Page) := new_page "peer_a".
Definition bob : State (W := Page) := new_page "peer_b".

(** Alice's page after Bob's [join]. *)
Definition alice_offering : State (W := Page) :=
  snd (page_receives sdp_text (LocalSignaling_broadcast "peer_b" (SigJoin "peer_b")) alice).

End Demo.


(** * Properties *)

Section Properties.

Context {W : Type}.
Variable JSON_stringify : JSON -> string.
Variable JSON_parse : string -> option JSON.
Variable sdp_of : SdpType -> RTCPeerConnection -> string.

Implicit Types (s : State (W := W)) (p q event : string) (r c : nat).

(** Proof steps for the lookups left by [removePeer]. *)

Local Ltac closed_lookup H :=
  let E := fresh "E" in
  intros ?; simpl; case_decide as E;
  [ injection E as <-; rewrite H; simpl;
    apply list_lookup_insert_eq; by eapply lookup_lt_Some
  | apply list_lookup_insert_ne; congruence ].

Local Ltac chan_cases :=
  simpl; try f_equal; unfold close_owned; repeat case_decide;
  try done; try (exfalso; intuition congruence).

(** *** Setters *)

Lemma set_pcs_const s (l : list RTCPeerConnection) :
  l = pcs s -> set_pcs (fun _ => l) s = s.
Proof. intros ->. by destruct s. Qed.

Lemma set_chans_const s (l : list RTCDataChannel) :
  l = chans s -> set_chans (fun _ => l) s = s.
Proof. intros ->. by destruct s. Qed.

Lemma set_pcs_insert_id s r pc :
  pcs s !! r = Some pc -> set_pcs (<[r := pc]>) s = s.
Proof.
  intros H. destruct s; unfold set_pcs; simpl in *. f_equal.
  by apply list_insert_id.
Qed.

Lemma set_chans_insert_id s c ch :
  chans s !! c = Some ch -> set_chans (<[c := ch]>) s = s.
Proof.
  intros H. destruct s; unfold set_chans; simpl in *. f_equal.
  by apply list_insert_id.
Qed.

(** *** Calls on objects of the store *)

Lemma pc_call_eq {A}
  (method : RTCPeerConnection -> Outcome A * RTCPeerConnection) r pc s :
  pcs s !! r = Some pc ->
  pc_call r method s = (fst (method pc), set_pcs (<[r := snd (method pc)]>) s).
Proof. intros H. unfold pc_call. rewrite H. by destruct (method pc). Qed.

Lemma ch_call_eq {A}
  (method : RTCDataChannel -> Outcome A * RTCDataChannel) c ch s :
  chans s !! c = Some ch ->
  ch_call c method s = (fst (method ch), set_chans (<[c := snd (method ch)]>) s).
Proof. intros H. unfold ch_call. rewrite H. by destruct (method ch). Qed.

Lemma pc_get_eq {A} (prop : RTCPeerConnection -> A) r pc s :
  pcs s !! r = Some pc -> pc_get r prop s = (Return (prop pc), s).
Proof. intros H. unfold pc_get. by rewrite H. Qed.

Lemma ch_get_eq {A} (prop : RTCDataChannel -> A) c ch s :
  chans s !! c = Some ch -> ch_get c prop s = (Return (prop ch), s).
Proof. intros H. unfold ch_get. by rewrite H. Qed.

Lemma pc_close_eq r pc s :
  pcs s !! r = Some pc ->
  pc_close r s =
  (Return tt, set_chans (fmap (close_owned r)) (set_pcs (<[r := closed_pc pc]>) s)).
Proof.
  intros H. unfold pc_close, bind, modify. by rewrite (pc_call_eq _ r pc s).
Qed.

(** *** [createPeerConnection] *)

Lemma addTrack_loop (tracks : list Track) s r pc :
  pcs s !! r = Some pc ->
  forEach tracks (fun track => pc_call r (pc_addTrack track)) s =
  (Return tt,
   set_pcs (<[r := mkPC (connectionState pc) (localDescription pc)
                        (remoteDescription pc) (iceCandidates pc)
                        (senders pc ++ tracks) (handlersFor pc)]>) s).
Proof.
  revert s pc. induction tracks as [|t tracks IH]; intros s pc Hr; simpl.
  - unfold ret. f_equal. rewrite app_nil_r. symmetry.
    apply set_pcs_insert_id. by destruct pc.
  - unfold bind at 1. rewrite (pc_call_eq _ r pc s Hr). simpl.
    erewrite IH.
    2:{ simpl. apply list_lookup_insert_eq. by eapply lookup_lt_Some. }
    simpl. f_equal. destruct s; unfold set_pcs; simpl. f_equal.
    rewrite list_insert_insert_eq. by rewrite <- app_assoc.
Qed.

Lemma createPeerConnection_eq p s :
  createPeerConnection p s =
  (Return (length (pcs s)),
   set_peerConnections (<[p := length (pcs s)]>)
     (set_pcs (fun l => l ++ [fresh_pc p (localStream s)]) s)).
Proof.
  assert (Hnew : forall (l : list RTCPeerConnection) x, (l ++ [x]) !! length l = Some x).
  { intros l x. rewrite lookup_app_r by lia. by rewrite Nat.sub_diag. }
  assert (Hput : forall (l : list RTCPeerConnection) x y,
             <[length l := y]> (l ++ [x]) = l ++ [y]).
  { intros l x y. replace (length l) with (length l + 0) at 1 by lia.
    by rewrite insert_app_r. }
  unfold createPeerConnection, bind, new_RTCPeerConnection, gets, modify, ret.
  simpl. destruct (localStream s) as [st|] eqn:Hst; simpl.
  - erewrite addTrack_loop by (simpl; apply Hnew).
    erewrite pc_call_eq.
    2:{ simpl. rewrite Hput. apply Hnew. }
    simpl. f_equal.
    destruct s as [l ? ? ? ? ? ? ? ?]; unfold set_peerConnections, set_pcs; simpl in *.
    f_equal. rewrite !Hput. by subst.
  - unfold ret. erewrite pc_call_eq by (simpl; apply Hnew).
    simpl. f_equal.
    destruct s as [l ? ? ? ? ? ? ? ?]; unfold set_peerConnections, set_pcs; simpl in *.
    f_equal. rewrite Hput. by subst.
Qed.

(** *** The event dispatcher *)

Lemma registered_on_same event (cb : Callback) s :
  registered event (snd (on event cb s)) = registered event s ++ [cb].
Proof.
  unfold on, modify, registered; simpl.
  rewrite lookup_alter_eq.
  destruct (callbacks s !! event) as [l|] eqn:E; simpl.
  - by rewrite E.
  - by rewrite lookup_insert_eq.
Qed.

Lemma registered_on_other event event' (cb : Callback) s :
  event <> event' ->
  registered event' (snd (on event cb s)) = registered event' s.
Proof.
  intros Hne. unfold on, modify, registered; simpl.
  rewrite lookup_alter_ne by done.
  destruct (callbacks s !! event); [done|]. by rewrite lookup_insert_ne.
Qed.

Lemma forEach_all_return data (cbs : list Callback) w w' :
  all_return data cbs w w' ->
  forall s, world s = w ->
  forEach cbs (run_callback data) s = (Return tt, set_world w' s).
Proof.
  induction 1 as [w|cb cbs w w1 w2 Hcb Hrest IH]; intros s Hw; simpl.
  - unfold ret. subst w. by destruct s.
  - unfold bind. unfold run_callback at 1. rewrite Hw, Hcb. cbn.
    rewrite (IH (set_world w1 s)) by done. by destruct s.
Qed.

Lemma forEach_first_throw data (pre post : list Callback) cb w w1 w2 e :
  all_return data pre w w1 ->
  cb data w1 = (Throw e, w2) ->
  forall s, world s = w ->
  forEach (pre ++ cb :: post) (run_callback data) s = (Throw e, set_world w2 s).
Proof.
  induction 1 as [w|cb0 cbs w w0 w1 Hcb Hrest IH]; intros Hthrow s Hw; simpl.
  - unfold bind, run_callback. by rewrite Hw, Hthrow.
  - unfold bind at 1. unfold run_callback at 1. rewrite Hw, Hcb. cbn.
    rewrite (IH Hthrow (set_world w0 s)) by done. by destruct s.
Qed.

Lemma emit_eq event data s :
  emit event data s =
  forEach (registered event s) (run_callback data)
          (set_emitted (fun l => l ++ [(event, data)]) s).
Proof. by destruct s. Qed.

(** Callbacks that never throw: [emit] returns. *)
Lemma all_return_of_Forall data (cbs : list (Callback (W := W))) (w : W) :
  Forall returns_normally cbs -> exists w', all_return data cbs w w'.
Proof.
  intros H. revert w. induction H as [|cb cbs Hcb _ IH]; intros w.
  - eexists. constructor.
  - destruct (Hcb data w) as [w1 H1]. destruct (IH w1) as [w2 H2].
    exists w2. econstructor; eauto.
Qed.

Lemma emit_returns event data s :
  Forall returns_normally (registered event s) ->
  exists w',
    emit event data s =
    (Return tt, set_world w' (set_emitted (fun l => l ++ [(event, data)]) s)).
Proof.
  intros H. destruct (all_return_of_Forall data _ (world s) H) as [w' Hw'].
  exists w'. rewrite emit_eq. by apply (forEach_all_return _ _ _ _ Hw').
Qed.

(** C2 (as the code has it): [on] appends to the event's list, and [emit]
    calls the listed callbacks in that order, synchronously, until one
    throws: if all return, all have run; if one throws, the error leaves
    [emit] at once and the callbacks registered after it are not called
    (the collaborators' state is the one the throwing callback left). *)
Theorem emit_runs_until_first_throw event data s :
  (forall cb, registered event (snd (on event cb s)) = registered event s ++ [cb]) /\
  (forall w',
     all_return data (registered event s) (world s) w' ->
     emit event data s =
     (Return tt, set_world w' (set_emitted (fun l => l ++ [(event, data)]) s))) /\
  (forall pre cb post w1 w2 e,
     registered event s = pre ++ cb :: post ->
     all_return data pre (world s) w1 ->
     cb data w1 = (Throw e, w2) ->
     emit event data s =
     (Throw e, set_world w2 (set_emitted (fun l => l ++ [(event, data)]) s))).
Proof.
  split_and!.
  - intros cb. apply registered_on_same.
  - intros w' H. rewrite emit_eq. by apply (forEach_all_return _ _ _ _ H).
  - intros pre cb post w1 w2 e Hreg Hpre Hcb. rewrite emit_eq, Hreg.
    by apply (forEach_first_throw _ _ _ _ _ _ _ _ Hpre Hcb).
Qed.

(** *** Creating connections and channels *)

(** C3 (as the code has it): [createPeerConnection] never fails and never
    returns a registered connection: it always allocates a new connection
    object, carrying the local tracks and the handlers for the peer id and
    nothing else, and stores it under the peer id, overwriting whatever was
    registered there; the store keeps the earlier objects as they were (the
    one replaced is not closed). *)
Theorem createPeerConnection_always_replaces p s :
  exists s',
    createPeerConnection p s = (Return (length (pcs s)), s') /\
    peerConnections s' = <[p := length (pcs s)]> (peerConnections s) /\
    pcs s' = pcs s ++ [fresh_pc p (localStream s)] /\
    dataChannels s' = dataChannels s /\
    chans s' = chans s.
Proof.
  eexists. split; [apply createPeerConnection_eq|]. by destruct s.
Qed.

(** C10: [createDataChannel] for a peer id with no registered connection
    returns [null] and changes nothing. *)
Theorem createDataChannel_unknown_peer p lbl s :
  peerConnections s !! p = None ->
  createDataChannel p lbl s = (Return None, s).
Proof.
  intros H. unfold createDataChannel, bind, gets. by rewrite H.
Qed.

(** C4 (what the code does): [createOffer] for a peer id with no registered
    connection registers a new connection and then throws [TypeError]; no
    offer is produced. *)
Theorem createOffer_unknown_peer_throws p s :
  peerConnections s !! p = None ->
  exists s',
    createOffer sdp_of p s = (Throw TypeError, s') /\
    peerConnections s' !! p = Some (length (pcs s)) /\
    pcs s' = pcs s ++ [fresh_pc p (localStream s)].
Proof.
  intros H. unfold createOffer, bind, gets. rewrite H.
  rewrite createPeerConnection_eq. simpl. unfold throw. eexists. split; [done|].
  simpl. split; [apply lookup_insert_eq | done].
Qed.

(** *** The registry invariant *)

Lemma refs_distinct_spec (m : gmap string nat) :
  refs_distinct m <->
  (forall p q r, m !! p = Some r -> m !! q = Some r -> p = q).
Proof.
  unfold refs_distinct. split.
  - intros H p q r Hp Hq.
    apply (map_Forall_lookup_1 _ _ _ _ (map_Forall_lookup_1 _ _ _ _ H Hp) Hq).
    reflexivity.
  - intros H. apply map_Forall_lookup_2. intros p r Hp.
    apply map_Forall_lookup_2. intros q r' Hq ->. by eapply H.
Qed.

Lemma wf_constructor (w : W) : wf (constructor w).
Proof.
  unfold wf, bound_ok, refs_distinct, owners_ok, constructor; simpl.
  repeat split; apply map_Forall_empty.
Qed.

(** Two registered connections are two objects. *)
Lemma bound_ok_distinct s p q r :
  bound_ok s ->
  peerConnections s !! p = Some r -> peerConnections s !! q = Some r -> p = q.
Proof.
  intros Hb Hp Hq. apply Hb in Hp, Hq. simpl in Hp, Hq. congruence.
Qed.

Lemma bound_ok_lookup s p r :
  bound_ok s -> peerConnections s !! p = Some r ->
  exists pc, pcs s !! r = Some pc /\ handlersFor pc = Some p.
Proof.
  intros Hb Hp. apply Hb in Hp. simpl in Hp.
  destruct (pcs s !! r) as [pc|]; simplify_eq/=. by exists pc.
Qed.

Lemma owners_ok_lookup s q c :
  owners_ok s -> dataChannels s !! q = Some c ->
  exists ch, chans s !! c = Some ch /\
    is_Some (pcs s !! owner ch) /\
    (forall p, peerConnections s !! p = Some (owner ch) -> p = q).
Proof.
  intros Ho Hq. apply Ho in Hq. unfold owner_ok_at in Hq.
  destruct (chans s !! c) as [ch|]; [|done]. destruct Hq as [Hsome Hall].
  exists ch. split_and!; try done.
  intros p Hp. by apply (map_Forall_lookup_1 _ _ _ _ Hall Hp).
Qed.

Lemma sub_shape_refl s : sub_shape s s.
Proof. by unfold sub_shape. Qed.

Lemma sub_shape_trans s1 s2 s3 :
  sub_shape s1 s2 -> sub_shape s2 s3 -> sub_shape s1 s3.
Proof.
  intros (A1 & A2 & A3 & A4) (B1 & B2 & B3 & B4). split_and!.
  - by transitivity (peerConnections s2).
  - by transitivity (dataChannels s2).
  - intros r. by rewrite B3.
  - intros c. by rewrite B4.
Qed.

Lemma wf_sub_shape s s' : sub_shape s s' -> wf s -> wf s'.
Proof.
  intros (Hpm & Hdm & Hh & Ho) (Hb & Hd & Hown). split_and!.
  - apply map_Forall_lookup_2. intros p r Hp.
    rewrite Hh. apply (Hb p r). by eapply lookup_weaken.
  - apply refs_distinct_spec. intros p q r Hp Hq.
    eapply (proj1 (refs_distinct_spec _) Hd); by eapply lookup_weaken.
  - apply map_Forall_lookup_2. intros q c Hq.
    destruct (owners_ok_lookup s q c Hown) as (ch & Hch & Hsome & Hall).
    { by eapply lookup_weaken. }
    unfold owner_ok_at.
    pose proof (Ho c) as Hc. rewrite Hch in Hc. simpl in Hc.
    destruct (chans s' !! c) as [ch'|]; simpl in Hc; [|done].
    injection Hc as Hc. split.
    + apply (fmap_is_Some handlersFor). rewrite Hh, Hc.
      by apply fmap_is_Some.
    + apply map_Forall_lookup_2. intros p r Hp ->.
      apply Hall. rewrite <- Hc. by eapply lookup_weaken.
Qed.

(** Computations that register nothing and create nothing. *)

Lemma keeps_shape_ret {A} (a : A) : keeps_shape (ret (W := W) a).
Proof. intros s. apply sub_shape_refl. Qed.

Lemma keeps_shape_throw {A} e : keeps_shape (throw (W := W) (A := A) e).
Proof. intros s. apply sub_shape_refl. Qed.

Lemma keeps_shape_gets {A} (f : State (W := W) -> A) : keeps_shape (gets f).
Proof. intros s. apply sub_shape_refl. Qed.

Lemma keeps_shape_bind {A B} (m : M (W := W) A) (k : A -> M B) :
  keeps_shape m -> (forall a, keeps_shape (k a)) -> keeps_shape (bind m k).
Proof.
  intros Hm Hk s. unfold bind. specialize (Hm s).
  destruct (m s) as [[a|e] s1]; simpl in *; [|done].
  eapply sub_shape_trans; [exact Hm|]. apply Hk.
Qed.

Lemma keeps_shape_try_catch {A} (m : M (W := W) A) (h : JsError -> M A) :
  keeps_shape m -> (forall e, keeps_shape (h e)) -> keeps_shape (try_catch m h).
Proof.
  intros Hm Hh s. unfold try_catch. specialize (Hm s).
  destruct (m s) as [[a|e] s1]; simpl in *; [done|].
  eapply sub_shape_trans; [exact Hm|]. apply Hh.
Qed.

Lemma keeps_shape_forEach {A} (items : list A) (body : A -> M (W := W) unit) :
  (forall x, keeps_shape (body x)) -> keeps_shape (forEach items body).
Proof.
  intros Hbody. induction items as [|x items IH]; simpl.
  - apply keeps_shape_ret.
  - apply keeps_shape_bind; [apply Hbody | by intros _].
Qed.

Lemma keeps_shape_pc_get {A} r (prop : RTCPeerConnection -> A) :
  keeps_shape (pc_get (W := W) r prop).
Proof. intros s. unfold pc_get. destruct (pcs s !! r); apply sub_shape_refl. Qed.

Lemma keeps_shape_ch_get {A} c (prop : RTCDataChannel -> A) :
  keeps_shape (ch_get (W := W) c prop).
Proof. intros s. unfold ch_get. destruct (chans s !! c); apply sub_shape_refl. Qed.

Lemma keeps_shape_pc_call {A} r
  (method : RTCPeerConnection -> Outcome A * RTCPeerConnection) :
  (forall pc, handlersFor (snd (method pc)) = handlersFor pc) ->
  keeps_shape (pc_call (W := W) r method).
Proof.
  intros Hm s. unfold pc_call. destruct (pcs s !! r) as [pc|] eqn:Hpc;
    [|apply sub_shape_refl].
  specialize (Hm pc). destruct (method pc) as [o pc']; simpl in *.
  split_and!; try done. intros r'. simpl.
  destruct (decide (r = r')) as [<-|Hne].
  - rewrite list_lookup_insert_eq by (by eapply lookup_lt_Some).
    rewrite Hpc. simpl. by rewrite Hm.
  - by rewrite list_lookup_insert_ne.
Qed.

Lemma keeps_shape_ch_call {A} c
  (method : RTCDataChannel -> Outcome A * RTCDataChannel) :
  (forall ch, owner (snd (method ch)) = owner ch) ->
  keeps_shape (ch_call (W := W) c method).
Proof.
  intros Hm s. unfold ch_call. destruct (chans s !! c) as [ch|] eqn:Hch;
    [|apply sub_shape_refl].
  specialize (Hm ch). destruct (method ch) as [o ch']; simpl in *.
  split_and!; try done. intros c'. simpl.
  destruct (decide (c = c')) as [<-|Hne].
  - rewrite list_lookup_insert_eq by (by eapply lookup_lt_Some).
    rewrite Hch. simpl. by rewrite Hm.
  - by rewrite list_lookup_insert_ne.
Qed.

Lemma keeps_shape_modify (f : State (W := W) -> State) :
  (forall s, sub_shape s (f s)) -> keeps_shape (modify f).
Proof. intros H s. apply H. Qed.

Lemma owner_close_owned r ch : owner (close_owned r ch) = owner ch.
Proof. unfold close_owned. by case_decide. Qed.

Lemma keeps_shape_pc_close r : keeps_shape (pc_close (W := W) r).
Proof.
  unfold pc_close. apply keeps_shape_bind.
  - by apply keeps_shape_pc_call.
  - intros _. apply keeps_shape_modify. intros s. split_and!; try done.
    intros c. simpl. rewrite list_lookup_fmap.
    destruct (chans s !! c); simpl; [|done]. by rewrite owner_close_owned.
Qed.

Lemma keeps_shape_run_callback data (cb : Callback (W := W)) :
  keeps_shape (run_callback data cb).
Proof.
  intros s. unfold run_callback. destruct (cb data (world s)). by split_and!.
Qed.

Lemma keeps_shape_emit event data : keeps_shape (emit (W := W) event data).
Proof.
  unfold emit. apply keeps_shape_bind; [by apply keeps_shape_modify|].
  intros _. apply keeps_shape_bind; [apply keeps_shape_gets|].
  intros cbs. apply keeps_shape_forEach. apply keeps_shape_run_callback.
Qed.

Lemma sub_shape_delete_pc s p : sub_shape s (set_peerConnections (delete p) s).
Proof. split_and!; try done. simpl. apply delete_subseteq. Qed.

Lemma sub_shape_delete_ch s p : sub_shape s (set_dataChannels (delete p) s).
Proof. split_and!; try done. simpl. apply delete_subseteq. Qed.

Lemma keeps_shape_removePeer p : keeps_shape (removePeer (W := W) p).
Proof.
  unfold removePeer.
  apply keeps_shape_bind; [apply keeps_shape_gets|]. intros pc.
  apply keeps_shape_bind.
  { destruct pc; [|apply keeps_shape_ret].
    apply keeps_shape_bind; [apply keeps_shape_pc_close|]. intros _.
    apply keeps_shape_modify. intros s. apply sub_shape_delete_pc. }
  intros _. apply keeps_shape_bind; [apply keeps_shape_gets|]. intros ch.
  destruct ch; [|apply keeps_shape_ret].
  apply keeps_shape_bind; [by apply keeps_shape_ch_call|]. intros _.
  apply keeps_shape_modify. intros s. apply sub_shape_delete_ch.
Qed.

Lemma keeps_shape_handleDisconnection p :
  keeps_shape (handleDisconnection (W := W) p).
Proof.
  unfold handleDisconnection.
  apply keeps_shape_bind; [apply keeps_shape_emit|]. intros _.
  apply keeps_shape_removePeer.
Qed.

Lemma keeps_shape_pc_onconnectionstatechange p r :
  keeps_shape (pc_onconnectionstatechange (W := W) p r).
Proof.
  unfold pc_onconnectionstatechange.
  apply keeps_shape_bind; [apply keeps_shape_pc_get|]. intros st.
  apply keeps_shape_bind; [apply keeps_shape_emit|]. intros _.
  apply keeps_shape_bind; [apply keeps_shape_pc_get|]. intros st'.
  destruct (failed_or_disconnected st');
    [apply keeps_shape_handleDisconnection | apply keeps_shape_ret].
Qed.

(** *** Sending on data channels *)

Lemma refs_of_map_to_list (m : gmap string nat) r :
  r ∈ (map_to_list m).*2 <-> exists p, m !! p = Some r.
Proof.
  rewrite list_elem_of_fmap. split.
  - intros [[p r'] [-> H]]. exists p. by apply elem_of_map_to_list.
  - intros [p H]. exists (p, r). split; [done|]. by apply elem_of_map_to_list.
Qed.

Lemma refs_distinct_NoDup (m : gmap string nat) :
  refs_distinct m -> NoDup (map_to_list m).*2.
Proof.
  intros Hd. apply NoDup_fmap_2_strong; [|apply NoDup_map_to_list].
  intros [p r] [q r'] Hp Hq. simpl. intros <-.
  apply elem_of_map_to_list in Hp, Hq.
  by rewrite (proj1 (refs_distinct_spec m) Hd p q r Hp Hq).
Qed.


(** The loop of [broadcast] over any list of entries whose references are
    distinct and name objects of the store. *)
Lemma broadcast_loop (data : string) (entries : list (string * nat)) :
  forall s,
    NoDup entries.*2 ->
    (forall c, c ∈ entries.*2 -> is_Some (chans s !! c)) ->
    exists l',
      forEach entries (fun '(peerId, channel) =>
        bind (ch_get channel readyState) (fun st =>
          if is_open st then ch_call channel (ch_send data) else ret tt)) s
      = (Return tt, set_chans (fun _ => l') s) /\
      length l' = length (chans s) /\
      (forall c, c ∈ entries.*2 ->
         exists ch, chans s !! c = Some ch /\
           l' !! c = Some (if is_open (readyState ch) then delivered data ch else ch)) /\
      (forall c, c ∉ entries.*2 -> l' !! c = chans s !! c).
Proof.
  induction entries as [|[p c] entries IH]; intros s Hnd Hin.
  - exists (chans s). simpl. split_and!; try done.
    + unfold ret. f_equal. symmetry. by apply set_chans_const.
    + intros c Hc. by apply elem_of_nil in Hc.
  - rewrite fmap_cons in Hnd, Hin. simpl in Hnd, Hin.
    apply NoDup_cons in Hnd as [Hc Hnd].
    destruct (Hin c) as [ch Hch]; [apply elem_of_cons; by left|].
    set (ch' := if is_open (readyState ch) then delivered data ch else ch).
    set (s1 := set_chans (<[c := ch']>) s).
    assert (Hbody :
      bind (ch_get c readyState) (fun st =>
        if is_open st then ch_call c (ch_send data) else ret tt) s
      = (Return tt, s1)).
    { unfold bind. rewrite (ch_get_eq _ c ch s Hch). unfold s1, ch'.
      destruct (is_open (readyState ch)) eqn:Hopen.
      - rewrite (ch_call_eq _ c ch s Hch). unfold ch_send. by rewrite Hopen.
      - unfold ret. f_equal. symmetry. by apply set_chans_insert_id. }
    destruct (IH s1 Hnd) as (l' & Hrun & Hlen & Hl'in & Hl'out).
    { intros c' Hc'. unfold s1; simpl.
      apply lookup_lt_is_Some. rewrite length_insert. apply lookup_lt_is_Some.
      apply Hin. apply elem_of_cons. by right. }
    exists l'. split_and!.
    + simpl. unfold bind at 1. rewrite Hbody. rewrite Hrun.
      by destruct s.
    + rewrite Hlen. unfold s1; simpl. apply length_insert.
    + intros c' Hc'. rewrite fmap_cons in Hc'. simpl in Hc'.
      apply elem_of_cons in Hc' as [->|Hc'].
      * exists ch. split; [done|]. rewrite (Hl'out c Hc). unfold s1; simpl.
        apply list_lookup_insert_eq. by eapply lookup_lt_Some.
      * destruct (Hl'in c' Hc') as (x & Hx & Hl').
        assert (c <> c') by (intros ->; done).
        unfold s1 in Hx; simpl in Hx. rewrite list_lookup_insert_ne in Hx by done.
        by exists x.
    + intros c' Hc'. rewrite fmap_cons in Hc'. simpl in Hc'.
      apply not_elem_of_cons in Hc' as [Hne Hc'].
      rewrite (Hl'out c' Hc'). unfold s1; simpl.
      by rewrite list_lookup_insert_ne.
Qed.

(** C6: [broadcast] never throws and changes nothing but channel objects:
    every registered channel that is open at the call is given the
    serialised message once, every registered channel that is not open is
    left as it was, and so is every channel object no peer is registered
    with. *)
Theorem broadcast_spec message s :
  wf s ->
  exists s',
    broadcast JSON_stringify message s = (Return tt, s') /\
    s' = set_chans (fun _ => chans s') s /\
    length (chans s') = length (chans s) /\
    (forall p c, dataChannels s !! p = Some c ->
       exists ch, chans s !! c = Some ch /\
         chans s' !! c =
         Some (if is_open (readyState ch)
               then delivered (JSON_stringify message) ch else ch)) /\
    (forall c, (forall p, dataChannels s !! p <> Some c) ->
       chans s' !! c = chans s !! c).
Proof.
  intros (_ & Hd & Hown).
  destruct (broadcast_loop (JSON_stringify message)
              (map_to_list (dataChannels s)) s) as (l' & Hrun & Hlen & Hin & Hout).
  { by apply refs_distinct_NoDup. }
  { intros c [p Hp]%refs_of_map_to_list.
    destruct (owners_ok_lookup s p c Hown Hp) as (ch & -> & _). by eexists. }
  exists (set_chans (fun _ => l') s). split_and!; try done.
  - intros p c Hp. apply Hin. apply refs_of_map_to_list. by exists p.
  - intros c Hc. apply Hout. intros [p Hp]%refs_of_map_to_list. by apply (Hc p).
Qed.

Lemma keeps_shape_sendMessage p message :
  keeps_shape (sendMessage (W := W) JSON_stringify p message).
Proof.
  unfold sendMessage.
  apply keeps_shape_bind; [apply keeps_shape_gets|]. intros [c|];
    [|apply keeps_shape_ret].
  apply keeps_shape_bind; [apply keeps_shape_ch_get|]. intros st.
  destruct (is_open st); [|apply keeps_shape_ret].
  apply keeps_shape_bind; [|intros _; apply keeps_shape_ret].
  apply keeps_shape_ch_call. intros ch. unfold ch_send.
  by destruct (is_open (readyState ch)).
Qed.

Lemma keeps_shape_broadcast message :
  keeps_shape (broadcast (W := W) JSON_stringify message).
Proof.
  unfold broadcast.
  apply keeps_shape_bind; [apply keeps_shape_gets|]. intros entries.
  apply keeps_shape_forEach. intros [p c].
  apply keeps_shape_bind; [apply keeps_shape_ch_get|]. intros st.
  destruct (is_open st); [|apply keeps_shape_ret].
  apply keeps_shape_ch_call. intros ch. unfold ch_send.
  by destruct (is_open (readyState ch)).
Qed.

(** *** Removing peers *)

(** [removePeer]: both entries of the peer are deleted; the connection that
    was registered is closed, and so are the channel that was registered
    and the channels created on that connection; nothing else changes. *)
Lemma removePeer_spec p s :
  wf s ->
  exists s',
    removePeer p s = (Return tt, s') /\
    peerConnections s' = delete p (peerConnections s) /\
    dataChannels s' = delete p (dataChannels s) /\
    (forall r, pcs s' !! r =
               if decide (peerConnections s !! p = Some r)
               then closed_pc <$> pcs s !! r else pcs s !! r) /\
    (forall c, chans s' !! c =
               (fun ch => if decide (dataChannels s !! p = Some c \/
                                     peerConnections s !! p = Some (owner ch))
                          then closed_ch ch else ch) <$> chans s !! c) /\
    localStream s' = localStream s /\ callbacks s' = callbacks s /\
    world s' = world s /\ console s' = console s /\ emitted s' = emitted s.
Proof.
  clear JSON_stringify JSON_parse sdp_of.
  intros (Hb & _ & Hown).
  unfold removePeer, bind, gets, modify, ret.
  destruct (peerConnections s !! p) as [r|] eqn:Hp.
  - destruct (bound_ok_lookup s p r Hb Hp) as (pc & Hpc & _).
    rewrite (pc_close_eq r pc s Hpc). cbn [fst snd dataChannels set_peerConnections
      set_chans set_pcs].
    destruct (dataChannels s !! p) as [c|] eqn:Hc.
    + destruct (owners_ok_lookup s p c Hown Hc) as (ch & Hch & _).
      erewrite ch_call_eq.
      2:{ cbn [chans set_peerConnections set_chans set_pcs].
          rewrite list_lookup_fmap, Hch. reflexivity. }
      eexists. split; [reflexivity|]. simpl.
      split_and!; try done.
      * closed_lookup Hpc.
      * intros c'. destruct (decide (c = c')) as [<-|Hne].
        -- rewrite list_lookup_insert_eq by
             (rewrite length_fmap; by eapply lookup_lt_Some).
           rewrite Hch. chan_cases.
        -- rewrite list_lookup_insert_ne by done. rewrite list_lookup_fmap.
           destruct (chans s !! c') as [ch'|]; chan_cases.
    + eexists. split; [reflexivity|]. simpl.
      split_and!; try done; try (by rewrite delete_id).
      * closed_lookup Hpc.
      * intros c'. rewrite list_lookup_fmap.
        destruct (chans s !! c') as [ch'|]; chan_cases.
  - simpl. destruct (dataChannels s !! p) as [c|] eqn:Hc.
    + destruct (owners_ok_lookup s p c Hown Hc) as (ch & Hch & _).
      rewrite (ch_call_eq _ c ch s Hch).
      eexists. split; [reflexivity|]. simpl.
      split_and!; try done; try (by rewrite delete_id).
      intros c'. destruct (decide (c = c')) as [<-|Hne].
      * rewrite list_lookup_insert_eq by (by eapply lookup_lt_Some).
        rewrite Hch. chan_cases.
      * rewrite list_lookup_insert_ne by done.
        destruct (chans s !! c') as [ch'|]; chan_cases.
    + eexists. split; [reflexivity|].
      split_and!; try done; try (by rewrite delete_id).
      intros c'. destruct (chans s !! c') as [ch'|]; chan_cases.
Qed.

Lemma close_owned_by_cons r rs ch :
  close_owned_by rs (close_owned r ch) = close_owned_by (r :: rs) ch.
Proof.
  unfold close_owned_by, close_owned.
  repeat case_decide; simpl in *; try done.
  all: exfalso;
    repeat match goal with
           | H : _ ∈ _ :: _ |- _ => apply elem_of_cons in H as [?|?]
           | H : _ ∉ _ :: _ |- _ => apply not_elem_of_cons in H as [? ?]
           end; done.
Qed.

Lemma close_owned_by_nil ch : close_owned_by [] ch = ch.
Proof.
  unfold close_owned_by. destruct (decide (owner ch ∈ [])) as [E|]; [|done].
  by apply elem_of_nil in E.
Qed.

(** The loop of [closeAll]. *)
Lemma closeAll_loop (entries : list (string * nat)) :
  forall s,
    (forall r, r ∈ entries.*2 -> is_Some (pcs s !! r)) ->
    exists l',
      forEach entries (fun '(peerId, pc) => pc_close pc) s
      = (Return tt,
         set_chans (fun l => close_owned_by entries.*2 <$> l)
           (set_pcs (fun _ => l') s)) /\
      length l' = length (pcs s) /\
      (forall r, l' !! r =
                 if decide (r ∈ entries.*2)
                 then closed_pc <$> pcs s !! r else pcs s !! r).
Proof.
  induction entries as [|[p r] entries IH]; intros s Hin.
  - exists (pcs s). simpl. split_and!; try done.
    unfold ret. f_equal. rewrite set_pcs_const by done.
    symmetry. apply set_chans_const.
    rewrite <- (list_fmap_id (chans s)) at 2. apply list_fmap_ext.
    intros i ch _. simpl. apply close_owned_by_nil.
  - rewrite fmap_cons in Hin. simpl in Hin.
    destruct (Hin r) as [pc Hpc]; [apply elem_of_cons; by left|].
    set (s1 := set_chans (fmap (close_owned r))
                 (set_pcs (<[r := closed_pc pc]>) s)).
    destruct (IH s1) as (l' & Hrun & Hlen & Hl').
    { intros r' Hr'. unfold s1; simpl.
      apply lookup_lt_is_Some. rewrite length_insert. apply lookup_lt_is_Some.
      apply Hin. apply elem_of_cons. by right. }
    exists l'. split_and!.
    + simpl. unfold bind at 1. rewrite (pc_close_eq r pc s Hpc).
      fold s1. rewrite Hrun. unfold s1.
      destruct s as [? chs ? ? ? ? ? ? ?]; unfold set_chans, set_pcs; simpl.
      do 2 f_equal. rewrite <- list_fmap_compose. apply list_fmap_ext.
      intros i ch _. simpl. apply close_owned_by_cons.
    + rewrite Hlen. unfold s1; simpl. apply length_insert.
    + intros r'. rewrite (Hl' r'). unfold s1; simpl.
      destruct (decide (r' = r)) as [->|Hne].
      * rewrite list_lookup_insert_eq by (by eapply lookup_lt_Some).
        rewrite Hpc. simpl.
        repeat case_decide; try done.
        all: exfalso; match goal with H : _ ∉ _ :: _ |- _ => apply H end.
        all: apply elem_of_cons; by left.
      * rewrite list_lookup_insert_ne by done.
        repeat case_decide; try done; exfalso.
        -- match goal with H : _ ∉ _ :: _ |- _ => apply H end.
           apply elem_of_cons. by right.
        -- match goal with H : _ ∈ _ :: _ |- _ =>
             apply elem_of_cons in H as [?|?] end; done.
Qed.

(** [closeAll]: both maps are emptied and every registered connection is
    closed; a channel is closed when it was created on a registered
    connection, and left as it was otherwise. *)
Lemma closeAll_spec s :
  wf s ->
  exists s',
    closeAll s = (Return tt, s') /\
    peerConnections s' = ∅ /\
    dataChannels s' = ∅ /\
    length (pcs s') = length (pcs s) /\
    (forall p r, peerConnections s !! p = Some r ->
       pcs s' !! r = closed_pc <$> pcs s !! r) /\
    (forall r, (forall p, peerConnections s !! p <> Some r) ->
       pcs s' !! r = pcs s !! r) /\
    (forall c ch p, chans s !! c = Some ch ->
       peerConnections s !! p = Some (owner ch) ->
       chans s' !! c = Some (closed_ch ch)) /\
    (forall c ch, chans s !! c = Some ch ->
       (forall p, peerConnections s !! p <> Some (owner ch)) ->
       chans s' !! c = Some ch).
Proof.
  intros (Hb & _ & _).
  destruct (closeAll_loop (map_to_list (peerConnections s)) s)
    as (l' & Hrun & Hlen & Hl').
  { intros r [p Hp]%refs_of_map_to_list.
    destruct (bound_ok_lookup s p r Hb Hp) as (pc & -> & _). by eexists. }
  unfold closeAll, bind, gets, modify. rewrite Hrun.
  eexists. split; [reflexivity|]. simpl. split_and!; try done.
  - intros p r Hp. rewrite (Hl' r). rewrite decide_True; [done|].
    apply refs_of_map_to_list. by exists p.
  - intros r Hr. rewrite (Hl' r). rewrite decide_False; [done|].
    intros [p Hp]%refs_of_map_to_list. by apply (Hr p).
  - intros c ch p Hch Hp. rewrite list_lookup_fmap, Hch. simpl. f_equal.
    unfold close_owned_by. rewrite decide_True; [done|].
    apply refs_of_map_to_list. by exists p.
  - intros c ch Hch Hp. rewrite list_lookup_fmap, Hch. simpl. f_equal.
    unfold close_owned_by. rewrite decide_False; [done|].
    intros [p Hp']%refs_of_map_to_list. by apply (Hp p).
Qed.

(** In a registry where each registered channel was created on a registered
    connection, [closeAll] leaves every registered channel closed. *)
Lemma closeAll_closes_channels_of_registered_connections s :
  wf s ->
  forall q c ch p,
    dataChannels s !! q = Some c ->
    chans s !! c = Some ch ->
    peerConnections s !! p = Some (owner ch) ->
    readyState <$> chans (snd (closeAll s)) !! c = Some RsClosed.
Proof.
  intros Hwf q c ch p _ Hch Hp.
  destruct (closeAll_spec s Hwf) as (s' & -> & _ & _ & _ & _ & _ & Hcl & _).
  simpl. by rewrite (Hcl c ch p Hch Hp).
Qed.

Lemma keeps_shape_closeAll : keeps_shape (closeAll (W := W)).
Proof.
  unfold closeAll.
  apply keeps_shape_bind; [apply keeps_shape_gets|]. intros entries.
  apply keeps_shape_bind.
  { apply keeps_shape_forEach. intros [p r]. apply keeps_shape_pc_close. }
  intros _. apply keeps_shape_bind.
  - apply keeps_shape_modify. intros s. split_and!; try done.
    simpl. apply map_empty_subseteq.
  - intros _. apply keeps_shape_modify. intros s. split_and!; try done.
    simpl. apply map_empty_subseteq.
Qed.

(** *** Disconnection *)

(** [wf] reads only the two maps and the two stores. *)
Lemma wf_same_store s s' :
  pcs s' = pcs s -> chans s' = chans s ->
  peerConnections s' = peerConnections s ->
  dataChannels s' = dataChannels s ->
  wf s -> wf s'.
Proof.
  unfold wf, bound_ok, owners_ok, owner_ok_at. intros -> -> -> ->. done.
Qed.

Lemma when_live_eq r pc p (k : string -> M (W := W) unit) s :
  pcs s !! r = Some pc -> pc_closed pc = false -> handlersFor pc = Some p ->
  when_live r k s = k p s.
Proof.
  intros Hpc Hopen Hh. unfold when_live, bind.
  rewrite !(pc_get_eq _ r pc s Hpc). by rewrite Hopen, Hh.
Qed.

(** C7 (as the code has it): when the transport reports [failed] or
    [disconnected] on a live connection created for peer P, and no callback
    registered for [connectionStateChange] or [peerDisconnected] throws, the
    handler removes both registry entries of P, emits [connectionStateChange]
    and then exactly one [peerDisconnected] carrying P, and leaves the
    entries and the objects of every other peer id as they were. *)
Theorem transport_failure_removes_peer p r pc st s :
  wf s ->
  pcs s !! r = Some pc ->
  pc_closed pc = false ->
  handlersFor pc = Some p ->
  failed_or_disconnected st = true ->
  Forall returns_normally (registered "connectionStateChange" s) ->
  Forall returns_normally (registered "peerDisconnected" s) ->
  exists s',
    transport_reports r st s = (Return tt, s') /\
    peerConnections s' = delete p (peerConnections s) /\
    dataChannels s' = delete p (dataChannels s) /\
    emitted s' = emitted s ++ [("connectionStateChange", StateEvent p st);
                               ("peerDisconnected", PeerEvent p)] /\
    (forall q rq, q <> p -> peerConnections s !! q = Some rq ->
       pcs s' !! rq = pcs s !! rq) /\
    (forall q c, q <> p -> dataChannels s !! q = Some c ->
       chans s' !! c = chans s !! c).
Proof.
  intros Hwf Hpc Hopen Hh Hst Hcsc Hpd.
  unfold transport_reports. rewrite (when_live_eq r pc p _ s Hpc Hopen Hh).
  unfold bind at 1. rewrite (pc_call_eq _ r pc s Hpc). cbn [fst snd].
  set (s0 := set_pcs _ s).
  assert (Hpc0 : pcs s0 !! r = Some (pc_in_state st pc)).
  { unfold s0; simpl. apply list_lookup_insert_eq. by eapply lookup_lt_Some. }
  assert (Hwf0 : wf s0).
  { pose proof (keeps_shape_pc_call (A := unit) r
                  (fun pc => (Return tt, pc_in_state st pc))
                  (fun _ => eq_refl) s) as Hsh.
    rewrite (pc_call_eq _ r pc s Hpc) in Hsh. by apply (wf_sub_shape s). }
  unfold pc_onconnectionstatechange, bind.
  rewrite (pc_get_eq _ r _ s0 Hpc0). cbn [connectionState pc_in_state].
  destruct (emit_returns "connectionStateChange" (StateEvent p st) s0 Hcsc)
    as [w1 ->].
  set (s1 := set_world w1 _).
  rewrite (pc_get_eq _ r (pc_in_state st pc) s1 Hpc0).
  cbn [connectionState pc_in_state]. rewrite Hst.
  unfold handleDisconnection, bind.
  destruct (emit_returns "peerDisconnected" (PeerEvent p) s1 Hpd) as [w2 ->].
  set (s2 := set_world w2 _).
  assert (Hwf2 : wf s2) by (by apply (wf_same_store s0)).
  destruct (removePeer_spec p s2 Hwf2)
    as (s' & -> & Hpm & Hdm & Hpcs & Hchans & _ & _ & _ & _ & Hem).
  destruct Hwf as (Hb & Hd & Hown).
  exists s'. split_and!; try done.
  - rewrite Hem. simpl. by rewrite <- app_assoc.
  - intros q rq Hne Hq. rewrite (Hpcs rq). rewrite decide_False.
    + change (pcs s2) with (<[r := pc_in_state st pc]> (pcs s)).
      apply list_lookup_insert_ne. intros <-.
      destruct (bound_ok_lookup s q r Hb Hq) as (pc' & Hpc' & Hh').
      congruence.
    + change (peerConnections s2) with (peerConnections s).
      intros Hp. apply Hne. by apply (bound_ok_distinct s q p rq).
  - intros q c Hne Hq. rewrite (Hchans c).
    change (chans s2) with (chans s).
    change (dataChannels s2) with (dataChannels s).
    change (peerConnections s2) with (peerConnections s).
    destruct (owners_ok_lookup s q c Hown Hq) as (ch & Hch & _ & Hall).
    rewrite Hch. simpl. rewrite decide_False; [done|].
    intros [Hp|Hp].
    + apply Hne. exact (proj1 (refs_distinct_spec _) Hd q p c Hq Hp).
    + apply Hne. symmetry. by apply Hall.
Qed.

(** *** Inbound dispatch *)

(** With listeners that never throw, [channel.onmessage] emits exactly one
    event: [dataChannelMessage] when the payload parses, [dataChannelBinary]
    when it does not. *)
Lemma channel_onmessage_dispatch p payload s :
  Forall returns_normally (registered "dataChannelMessage" s) ->
  Forall returns_normally (registered "dataChannelBinary" s) ->
  exists s',
    channel_onmessage JSON_parse p payload s = (Return tt, s') /\
    emitted s' = emitted s ++
      [match JSON_parse (payload_toString payload) with
       | Some v => ("dataChannelMessage", MessageEvent p v)
       | None => ("dataChannelBinary", BinaryEvent p payload)
       end].
Proof.
  intros Hm Hb. unfold channel_onmessage, try_catch, bind.
  destruct (JSON_parse (payload_toString payload)) as [v|]; simpl.
  - destruct (emit_returns "dataChannelMessage" (MessageEvent p v) s Hm) as [w ->].
    eexists. split; [reflexivity|]. done.
  - destruct (emit_returns "dataChannelBinary" (BinaryEvent p payload) s Hb) as [w ->].
    eexists. split; [reflexivity|]. done.
Qed.

(** When a [dataChannelMessage] listener throws on a payload that parsed, the
    [catch] meant for unparsable payloads runs: the raw payload is emitted as
    [dataChannelBinary] as well. *)
Lemma channel_onmessage_listener_throws p payload v e s s1 :
  JSON_parse (payload_toString payload) = Some v ->
  emit "dataChannelMessage" (MessageEvent p v) s = (Throw e, s1) ->
  channel_onmessage JSON_parse p payload s =
  emit "dataChannelBinary" (BinaryEvent p payload) s1.
Proof.
  intros Hparse Hemit. unfold channel_onmessage, try_catch, bind.
  rewrite Hparse. simpl. unfold ret. by rewrite Hemit.
Qed.

(** *** ICE candidates *)

Lemma addIceCandidate_applied p r pc ice s :
  peerConnections s !! p = Some r ->
  pcs s !! r = Some pc ->
  pc_closed pc = false ->
  is_Some (remoteDescription pc) ->
  addIceCandidate p ice s = (Return tt, set_pcs (<[r := with_candidates [ice] pc]>) s).
Proof.
  intros Hp Hpc Hopen [d Hd]. unfold addIceCandidate, bind, gets. rewrite Hp.
  unfold try_catch. rewrite (pc_call_eq _ r pc s Hpc).
  unfold pc_addIceCandidate. by rewrite Hopen, Hd.
Qed.

Lemma addIceCandidate_refused p r pc ice s :
  peerConnections s !! p = Some r ->
  pcs s !! r = Some pc ->
  remoteDescription pc = None ->
  addIceCandidate p ice s =
  (Return tt,
   set_console (fun l => l ++ [("Failed to add ICE candidate:", InvalidStateError)]) s).
Proof.
  intros Hp Hpc Hd. unfold addIceCandidate, bind, gets. rewrite Hp.
  unfold try_catch. rewrite (pc_call_eq _ r pc s Hpc).
  unfold pc_addIceCandidate. rewrite Hd.
  destruct (pc_closed pc); simpl; unfold console_error, modify;
    by rewrite (set_pcs_insert_id s r pc Hpc).
Qed.

Lemma addIceCandidates_in_order p r (cs : list IceCandidate) :
  forall pc s,
    peerConnections s !! p = Some r ->
    pcs s !! r = Some pc ->
    pc_closed pc = false ->
    is_Some (remoteDescription pc) ->
    forEach cs (addIceCandidate p) s =
    (Return tt, set_pcs (<[r := with_candidates cs pc]>) s).
Proof.
  induction cs as [|ice cs IH]; intros pc s Hp Hpc Hopen Hd; simpl.
  - unfold ret. f_equal. symmetry. apply set_pcs_insert_id.
    unfold with_candidates. rewrite app_nil_r. by destruct pc.
  - unfold bind at 1. rewrite (addIceCandidate_applied p r pc ice s) by done.
    rewrite (IH (with_candidates [ice] pc)); try done.
    + f_equal. destruct s; unfold set_pcs; simpl. f_equal.
      rewrite list_insert_insert_eq. unfold with_candidates; simpl.
      by rewrite <- app_assoc.
    + simpl. apply list_lookup_insert_eq. by eapply lookup_lt_Some.
Qed.

Lemma handleOffer_keeps_candidates p r pc d s :
  peerConnections s !! p = Some r ->
  pcs s !! r = Some pc ->
  pc_closed pc = false ->
  exists s',
    handleOffer sdp_of p d s
      = (Return {| sdType := SdpAnswer;
                   sdp := sdp_of SdpAnswer
                            (mkPC (connectionState pc) (localDescription pc) (Some d)
                                  (iceCandidates pc) (senders pc) (handlersFor pc)) |},
         s') /\
    peerConnections s' = peerConnections s /\
    exists pc',
      pcs s' !! r = Some pc' /\
      remoteDescription pc' = Some d /\
      iceCandidates pc' = iceCandidates pc.
Proof.
  intros Hp Hpc Hopen.
  assert (Hr : r < length (pcs s)) by (by eapply lookup_lt_Some).
  unfold handleOffer, bind, gets. rewrite Hp. unfold ret.
  unfold pc_call at 1. rewrite Hpc. unfold pc_setRemoteDescription. rewrite Hopen.
  unfold pc_call at 1. cbn [pcs set_pcs]. rewrite list_lookup_insert_eq by done.
  unfold pc_createAnswer, pc_closed. cbn [connectionState remoteDescription].
  unfold pc_closed in Hopen.
  destruct (connectionState pc) eqn:Ecs; try done.
  all: unfold pc_call; cbn [pcs set_pcs];
    rewrite list_lookup_insert_eq by (by rewrite length_insert);
    unfold pc_setLocalDescription, pc_closed; cbn [connectionState]; rewrite ?Ecs;
    eexists; (split; [reflexivity|]); (split; [done|]); cbn [pcs set_pcs];
    eexists; (split; [apply list_lookup_insert_eq; by rewrite !length_insert|]);
    done.
Qed.

Lemma handleAnswer_keeps_candidates p r pc d s :
  peerConnections s !! p = Some r ->
  pcs s !! r = Some pc ->
  pc_closed pc = false ->
  exists s' pc',
    handleAnswer p d s = (Return tt, s') /\
    pcs s' !! r = Some pc' /\
    remoteDescription pc' = Some d /\
    iceCandidates pc' = iceCandidates pc.
Proof.
  intros Hp Hpc Hopen.
  unfold handleAnswer, bind, gets. rewrite Hp.
  rewrite (pc_call_eq _ r pc s Hpc). unfold pc_setRemoteDescription. rewrite Hopen.
  eexists _, _. split; [reflexivity|]. simpl.
  split; [apply list_lookup_insert_eq; by eapply lookup_lt_Some | done].
Qed.

(** C1 (as the code has it): for a peer with a registered, open connection,
    [addIceCandidate] hands the candidate to the connection at once.  While
    the remote description is set, candidates are applied immediately, in
    call order.  While it is not set, the connection refuses the candidate,
    the manager logs the error and the candidate is gone: nothing is kept
    for later, and [handleOffer] or [handleAnswer] setting the remote
    description afterwards applies no candidate. *)
Theorem addIceCandidate_applies_or_drops p r pc s :
  peerConnections s !! p = Some r ->
  pcs s !! r = Some pc ->
  pc_closed pc = false ->
  (is_Some (remoteDescription pc) ->
   forall cs,
     forEach cs (addIceCandidate p) s =
     (Return tt, set_pcs (<[r := with_candidates cs pc]>) s)) /\
  (remoteDescription pc = None ->
   forall ice,
     addIceCandidate p ice s =
     (Return tt,
      set_console
        (fun l => l ++ [("Failed to add ICE candidate:", InvalidStateError)]) s)) /\
  (forall d, exists answer s' pc',
     handleOffer sdp_of p d s = (Return answer, s') /\
     pcs s' !! r = Some pc' /\
     remoteDescription pc' = Some d /\
     iceCandidates pc' = iceCandidates pc) /\
  (forall d, exists s' pc',
     handleAnswer p d s = (Return tt, s') /\
     pcs s' !! r = Some pc' /\
     remoteDescription pc' = Some d /\
     iceCandidates pc' = iceCandidates pc).
Proof.
  intros Hp Hpc Hopen. split_and!.
  - intros Hd cs. by apply addIceCandidates_in_order.
  - intros Hd ice. by eapply addIceCandidate_refused.
  - intros d.
    destruct (handleOffer_keeps_candidates p r pc d s Hp Hpc Hopen)
      as (s' & Hrun & _ & pc' & H1 & H2 & H3).
    by eexists _, s', pc'.
  - intros d. by apply handleAnswer_keeps_candidates.
Qed.

(** [handleOffer] for an unknown peer assigns the connection it creates and
    answers (the path [createOffer] misses). *)
Lemma handleOffer_unknown_peer_answers p d s :
  peerConnections s !! p = None ->
  exists answer s',
    handleOffer sdp_of p d s = (Return answer, s') /\
    peerConnections s' !! p = Some (length (pcs s)).
Proof.
  intros Hp.
  set (s1 := snd (createPeerConnection p s)).
  assert (Hp1 : peerConnections s1 !! p = Some (length (pcs s))).
  { unfold s1. rewrite createPeerConnection_eq. simpl. apply lookup_insert_eq. }
  assert (Hpc1 : pcs s1 !! length (pcs s) = Some (fresh_pc p (localStream s))).
  { unfold s1. rewrite createPeerConnection_eq. simpl.
    rewrite lookup_app_r by lia. by rewrite Nat.sub_diag. }
  destruct (handleOffer_keeps_candidates p _ _ d s1 Hp1 Hpc1 eq_refl)
    as (s' & Hrun & Hpm & _).
  unfold handleOffer, bind, gets in Hrun |- *. rewrite Hp1 in Hrun. rewrite Hp.
  rewrite createPeerConnection_eq. unfold ret in Hrun.
  unfold s1 in Hrun. rewrite createPeerConnection_eq in Hrun. simpl in Hrun.
  eexists _, s'. split; [exact Hrun|]. by rewrite Hpm.
Qed.

(** *** The invariant holds in every run *)

Lemma preserves_wf_of_keeps_shape {A} (m : M (W := W) A) :
  keeps_shape m -> preserves_wf m.
Proof. intros H s. apply wf_sub_shape, H. Qed.

Lemma preserves_wf_bind {A B} (m : M (W := W) A) (k : A -> M B) :
  preserves_wf m -> (forall a, preserves_wf (k a)) -> preserves_wf (bind m k).
Proof.
  intros Hm Hk s Hwf. unfold bind. specialize (Hm s Hwf).
  destruct (m s) as [[a|e] s1]; simpl in *; [|done]. by apply Hk.
Qed.

Lemma keeps_shape_on event (cb : Callback (W := W)) : keeps_shape (on event cb).
Proof. by apply keeps_shape_modify. Qed.

Lemma keeps_shape_setLocalStream stream :
  keeps_shape (setLocalStream (W := W) stream).
Proof. by apply keeps_shape_modify. Qed.

Lemma handlersFor_setLocalDescription d pc :
  handlersFor (snd (pc_setLocalDescription d pc)) = handlersFor pc.
Proof. unfold pc_setLocalDescription. by destruct (pc_closed pc). Qed.

Lemma handlersFor_setRemoteDescription d pc :
  handlersFor (snd (pc_setRemoteDescription d pc)) = handlersFor pc.
Proof. unfold pc_setRemoteDescription. by destruct (pc_closed pc). Qed.

Lemma handlersFor_createOffer pc :
  handlersFor (snd (pc_createOffer sdp_of pc)) = handlersFor pc.
Proof. unfold pc_createOffer. by destruct (pc_closed pc). Qed.

Lemma handlersFor_createAnswer pc :
  handlersFor (snd (pc_createAnswer sdp_of pc)) = handlersFor pc.
Proof.
  unfold pc_createAnswer. by destruct (pc_closed pc), (remoteDescription pc).
Qed.

Lemma handlersFor_addIceCandidate ice pc :
  handlersFor (snd (pc_addIceCandidate ice pc)) = handlersFor pc.
Proof.
  unfold pc_addIceCandidate. by destruct (pc_closed pc), (remoteDescription pc).
Qed.

Lemma keeps_shape_handleAnswer p d : keeps_shape (handleAnswer (W := W) p d).
Proof.
  unfold handleAnswer.
  apply keeps_shape_bind; [apply keeps_shape_gets|]. intros [r|];
    [|apply keeps_shape_ret].
  apply keeps_shape_pc_call, handlersFor_setRemoteDescription.
Qed.

Lemma keeps_shape_addIceCandidate p ice :
  keeps_shape (addIceCandidate (W := W) p ice).
Proof.
  unfold addIceCandidate.
  apply keeps_shape_bind; [apply keeps_shape_gets|]. intros [r|];
    [|apply keeps_shape_ret].
  apply keeps_shape_try_catch.
  - apply keeps_shape_pc_call, handlersFor_addIceCandidate.
  - intros e. by apply keeps_shape_modify.
Qed.

(** The calls [createOffer] and [handleOffer] make on a connection. *)
Lemma keeps_shape_offer_calls r :
  keeps_shape (W := W)
    (bind (pc_call r (pc_createOffer sdp_of)) (fun offer =>
       bind (pc_call r (pc_setLocalDescription offer)) (fun _ => ret offer))).
Proof.
  apply keeps_shape_bind;
    [apply keeps_shape_pc_call, handlersFor_createOffer|]. intros offer.
  apply keeps_shape_bind;
    [apply keeps_shape_pc_call, handlersFor_setLocalDescription|]. intros _.
  apply keeps_shape_ret.
Qed.

Lemma keeps_shape_answer_calls r d :
  keeps_shape (W := W)
    (bind (pc_call r (pc_setRemoteDescription d)) (fun _ =>
       bind (pc_call r (pc_createAnswer sdp_of)) (fun answer =>
         bind (pc_call r (pc_setLocalDescription answer)) (fun _ => ret answer)))).
Proof.
  apply keeps_shape_bind;
    [apply keeps_shape_pc_call, handlersFor_setRemoteDescription|]. intros _.
  apply keeps_shape_bind;
    [apply keeps_shape_pc_call, handlersFor_createAnswer|]. intros answer.
  apply keeps_shape_bind;
    [apply keeps_shape_pc_call, handlersFor_setLocalDescription|]. intros _.
  apply keeps_shape_ret.
Qed.

Lemma preserves_wf_createPeerConnection p :
  preserves_wf (createPeerConnection (W := W) p).
Proof.
  intros s (Hb & Hd & Hown). rewrite createPeerConnection_eq.
  cbn [snd]. split_and!.
  - apply map_Forall_insert_2.
    + simpl. rewrite lookup_app_r by lia. by rewrite Nat.sub_diag.
    + eapply map_Forall_impl; [exact Hb|]. intros q r Hq. simpl in *.
      destruct (pcs s !! r) as [pc|] eqn:Hpc; [|done].
      by rewrite (lookup_app_l_Some _ _ _ _ Hpc).
  - done.
  - eapply map_Forall_impl; [exact Hown|]. intros q c Hq.
    unfold owner_ok_at in *. simpl.
    destruct (chans s !! c) as [ch|]; [|done]. destruct Hq as [[pc Hpc] Hall].
    split.
    + exists pc. by apply lookup_app_l_Some.
    + apply map_Forall_insert_2; [|done].
      intros Hn. apply lookup_lt_Some in Hpc. lia.
Qed.

(** A new channel on connection [r], set up for the peer id that [r]'s
    handlers close over. *)
Lemma new_channel_setup_eq r lbl p s :
  bind (new_RTCDataChannel r lbl) (setupDataChannel p) s =
  (Return tt,
   set_dataChannels (<[p := length (chans s)]>)
     (set_chans (fun l => l ++ [mkDC lbl true RsConnecting [] r (Some p)]) s)).
Proof.
  unfold setupDataChannel, bind, new_RTCDataChannel, modify.
  erewrite ch_call_eq.
  2:{ simpl. rewrite lookup_app_r by lia. by rewrite Nat.sub_diag. }
  simpl. f_equal.
  destruct s as [? l ? ? ? ? ? ? ?]; unfold set_dataChannels, set_chans; simpl.
  f_equal. replace (length l) with (length l + 0) at 1 by lia.
  by rewrite insert_app_r.
Qed.

Lemma wf_new_channel_setup r pc lbl p s :
  wf s -> pcs s !! r = Some pc -> handlersFor pc = Some p ->
  wf (snd (bind (new_RTCDataChannel r lbl) (setupDataChannel p) s)).
Proof.
  intros (Hb & Hd & Hown) Hpc Hh. rewrite new_channel_setup_eq. cbn [snd].
  assert (Hlt : forall q c, dataChannels s !! q = Some c -> c < length (chans s)).
  { intros q c Hq. destruct (owners_ok_lookup s q c Hown Hq) as (ch & Hch & _).
    by eapply lookup_lt_Some. }
  split_and!.
  - done.
  - apply refs_distinct_spec. simpl. intros a b c Ha Hb'.
    apply lookup_insert_Some in Ha as [[<- <-]|[Hne Ha]];
      apply lookup_insert_Some in Hb' as [[<- Hb']|[Hne' Hb']]; subst; try done.
    + apply Hlt in Hb'. lia.
    + apply Hlt in Ha. lia.
    + exact (proj1 (refs_distinct_spec _) Hd a b c Ha Hb').
  - apply map_Forall_insert_2.
    + unfold owner_ok_at. simpl. rewrite lookup_app_r by lia.
      rewrite Nat.sub_diag. simpl. split; [by eexists|].
      apply map_Forall_lookup_2. intros q r' Hq ->.
      destruct (bound_ok_lookup s q r Hb Hq) as (pc' & Hpc' & Hh'). congruence.
    + eapply map_Forall_impl; [exact Hown|]. intros q c Hq.
      unfold owner_ok_at in *. simpl.
      destruct (chans s !! c) as [ch|] eqn:Hch; [|done].
      by rewrite (lookup_app_l_Some _ _ _ _ Hch).
Qed.

Lemma preserves_wf_createDataChannel p lbl :
  preserves_wf (createDataChannel (W := W) p lbl).
Proof.
  intros s Hwf. unfold createDataChannel, bind at 1, gets.
  destruct (peerConnections s !! p) as [r|] eqn:Hp; [|done].
  destruct (bound_ok_lookup s p r (proj1 Hwf) Hp) as (pc & Hpc & Hh).
  pose proof (wf_new_channel_setup r pc lbl p s Hwf Hpc Hh) as Hnew.
  unfold pc_createDataChannel, bind in *. rewrite (pc_get_eq _ r pc s Hpc).
  destruct (pc_closed pc); [done|].
  destruct (new_RTCDataChannel r lbl s) as [[c|e] s1]; [|done].
  by destruct (setupDataChannel p c s1) as [[[]|e] s2].
Qed.

Lemma keeps_shape_when_live r (k : string -> M (W := W) unit) :
  (forall p, keeps_shape (k p)) -> keeps_shape (when_live r k).
Proof.
  intros Hk. unfold when_live.
  apply keeps_shape_bind; [apply keeps_shape_pc_get|]. intros closed.
  apply keeps_shape_bind; [apply keeps_shape_pc_get|]. intros h.
  destruct closed, h; try apply keeps_shape_ret. apply Hk.
Qed.

Lemma keeps_shape_transport_reports r st :
  keeps_shape (transport_reports (W := W) r st).
Proof.
  apply keeps_shape_when_live. intros p.
  apply keeps_shape_bind; [by apply keeps_shape_pc_call|]. intros _.
  apply keeps_shape_pc_onconnectionstatechange.
Qed.

Lemma keeps_shape_ice_gathers r ice : keeps_shape (ice_gathers (W := W) r ice).
Proof.
  apply keeps_shape_when_live. intros p. unfold pc_onicecandidate.
  destruct ice; [apply keeps_shape_emit | apply keeps_shape_ret].
Qed.

Lemma preserves_wf_remote_opens_channel r lbl :
  preserves_wf (remote_opens_channel (W := W) r lbl).
Proof.
  intros s Hwf. unfold remote_opens_channel, when_live, bind at 1 2, pc_get.
  destruct (pcs s !! r) as [pc|] eqn:Hpc; [|done]. rewrite Hpc.
  destruct (pc_closed pc); [by destruct (handlersFor pc)|].
  destruct (handlersFor pc) as [p|] eqn:Hh; [|done].
  by apply (wf_new_channel_setup r pc lbl p s).
Qed.

Lemma keeps_shape_channel_onmessage p payload :
  keeps_shape (channel_onmessage (W := W) JSON_parse p payload).
Proof.
  unfold channel_onmessage. apply keeps_shape_try_catch.
  - apply keeps_shape_bind.
    + destruct (JSON_parse _); [apply keeps_shape_ret | apply keeps_shape_throw].
    + intros v. apply keeps_shape_emit.
  - intros e. apply keeps_shape_emit.
Qed.

Lemma keeps_shape_when_set_up c (k : string -> M (W := W) unit) :
  (forall p, keeps_shape (k p)) -> keeps_shape (when_set_up c k).
Proof.
  intros Hk. unfold when_set_up.
  apply keeps_shape_bind; [apply keeps_shape_ch_get|]. intros [p|];
    [apply Hk | apply keeps_shape_ret].
Qed.

Lemma keeps_shape_channel_opens c : keeps_shape (channel_opens (W := W) c).
Proof.
  unfold channel_opens.
  apply keeps_shape_bind; [apply keeps_shape_ch_get|]. intros st.
  destruct st; try apply keeps_shape_ret.
  apply keeps_shape_bind; [by apply keeps_shape_ch_call|]. intros _.
  apply keeps_shape_when_set_up. intros p. apply keeps_shape_emit.
Qed.

Lemma keeps_shape_channel_receives c payload :
  keeps_shape (channel_receives (W := W) JSON_parse c payload).
Proof.
  unfold channel_receives.
  apply keeps_shape_bind; [apply keeps_shape_ch_get|]. intros st.
  destruct (is_open st); [|apply keeps_shape_ret].
  apply keeps_shape_when_set_up. intros p. apply keeps_shape_channel_onmessage.
Qed.

Lemma preserves_wf_createOffer p : preserves_wf (createOffer (W := W) sdp_of p).
Proof.
  unfold createOffer.
  apply preserves_wf_bind; [apply preserves_wf_of_keeps_shape, keeps_shape_gets|].
  intros [r|].
  - apply preserves_wf_of_keeps_shape.
    apply keeps_shape_bind; [apply keeps_shape_ret|]. intros _.
    apply keeps_shape_offer_calls.
  - apply preserves_wf_bind.
    + apply preserves_wf_bind; [apply preserves_wf_createPeerConnection|].
      intros _. apply preserves_wf_of_keeps_shape, keeps_shape_ret.
    + intros _. apply preserves_wf_of_keeps_shape, keeps_shape_throw.
Qed.

Lemma preserves_wf_handleOffer p d :
  preserves_wf (handleOffer (W := W) sdp_of p d).
Proof.
  unfold handleOffer.
  apply preserves_wf_bind; [apply preserves_wf_of_keeps_shape, keeps_shape_gets|].
  intros pc0. apply preserves_wf_bind.
  - destruct pc0; [apply preserves_wf_of_keeps_shape, keeps_shape_ret|].
    apply preserves_wf_createPeerConnection.
  - intros r. apply preserves_wf_of_keeps_shape, keeps_shape_answer_calls.
Qed.

Lemma wf_step t s : wf s -> wf (step JSON_stringify JSON_parse sdp_of t s).
Proof.
  destruct t; simpl.
  - exact (preserves_wf_of_keeps_shape _ (keeps_shape_setLocalStream _) s).
  - exact (preserves_wf_of_keeps_shape _ (keeps_shape_on _ _) s).
  - exact (preserves_wf_createPeerConnection _ s).
  - exact (preserves_wf_createDataChannel _ _ s).
  - exact (preserves_wf_createOffer _ s).
  - exact (preserves_wf_handleOffer _ _ s).
  - exact (preserves_wf_of_keeps_shape _ (keeps_shape_handleAnswer _ _) s).
  - exact (preserves_wf_of_keeps_shape _ (keeps_shape_addIceCandidate _ _) s).
  - exact (preserves_wf_of_keeps_shape _ (keeps_shape_sendMessage _ _) s).
  - exact (preserves_wf_of_keeps_shape _ (keeps_shape_broadcast _) s).
  - exact (preserves_wf_of_keeps_shape _ (keeps_shape_removePeer _) s).
  - exact (preserves_wf_of_keeps_shape _ keeps_shape_closeAll s).
  - exact (preserves_wf_of_keeps_shape _ (keeps_shape_transport_reports _ _) s).
  - exact (preserves_wf_of_keeps_shape _ (keeps_shape_ice_gathers _ _) s).
  - exact (preserves_wf_remote_opens_channel _ _ s).
  - exact (preserves_wf_of_keeps_shape _ (keeps_shape_channel_opens _) s).
  - exact (preserves_wf_of_keeps_shape _ (keeps_shape_channel_receives _ _) s).
Qed.

(** The invariant holds after any sequence of calls and browser events on a
    new manager. *)
Theorem wf_run (ts : list Step) (w : W) :
  wf (run JSON_stringify JSON_parse sdp_of ts (constructor w)).
Proof.
  unfold run. generalize (wf_constructor w). generalize (constructor w).
  induction ts as [|t ts IH]; intros s Hwf; simpl; [done|].
  apply IH. by apply wf_step.
Qed.

End Properties.

(** * The life of a session *)

Section Lifecycle.

Context {W : Type}.
Variable JSON_stringify : JSON -> string.
Variable sdp_of : SdpType -> RTCPeerConnection -> string.

Implicit Types (s : State (W := W)) (p q event : string) (r c : nat).

Lemma removePeer_unknown p s :
  peerConnections s !! p = None -> dataChannels s !! p = None ->
  removePeer p s = (Return tt, s).
Proof.
  intros H1 H2. unfold removePeer, bind, gets, ret. rewrite H1. by rewrite H2.
Qed.

(** X1: [removePeer(peerId)] on a well-formed registry returns, drops both
    entries of the peer, leaves its connection and its registered channel
    closed, and touches neither the entries nor the objects of any other
    registered peer; it emits nothing and calls no listener. *)
Theorem removePeer_closes_and_forgets p s :
  wf s ->
  exists s',
    removePeer p s = (Return tt, s') /\
    peerConnections s' = delete p (peerConnections s) /\
    dataChannels s' = delete p (dataChannels s) /\
    (forall r, peerConnections s !! p = Some r ->
       connectionState <$> pcs s' !! r = Some CsClosed) /\
    (forall c, dataChannels s !! p = Some c ->
       readyState <$> chans s' !! c = Some RsClosed) /\
    (forall q r, q <> p -> peerConnections s !! q = Some r ->
       pcs s' !! r = pcs s !! r) /\
    (forall q c, q <> p -> dataChannels s !! q = Some c ->
       chans s' !! c = chans s !! c) /\
    emitted s' = emitted s /\ world s' = world s.
Proof.
  intros Hwf. pose proof Hwf as (Hb & Hd & Hown).
  destruct (removePeer_spec p s Hwf)
    as (s' & Hrun & Hpm & Hdm & Hpcs & Hchs & _ & _ & Hw & _ & He).
  exists s'. split_and!; try done.
  - intros r Hr. rewrite Hpcs. rewrite decide_True by done.
    destruct (bound_ok_lookup s p r Hb Hr) as (pc & -> & _). done.
  - intros c Hc. rewrite Hchs.
    destruct (owners_ok_lookup s p c Hown Hc) as (ch & -> & _). simpl.
    rewrite decide_True by (by left). done.
  - intros q r Hq Hr. rewrite Hpcs. rewrite decide_False; [done|].
    intros Hpr. apply Hq. by eapply bound_ok_distinct.
  - intros q c Hq Hc. rewrite Hchs.
    destruct (owners_ok_lookup s q c Hown Hc) as (ch & -> & _ & Hq'). simpl.
    rewrite decide_False; [done|].
    intros [Hpc|Hpo].
    + apply Hq. exact (proj1 (refs_distinct_spec _) Hd q p c Hc Hpc).
    + apply Hq. symmetry. by apply Hq'.
Qed.

(** X2: removing a peer twice is removing it once: the second [removePeer]
    finds neither entry and leaves every object as it is. *)
Theorem removePeer_idempotent p s :
  wf s ->
  removePeer p (snd (removePeer p s)) = (Return tt, snd (removePeer p s)).
Proof.
  intros Hwf.
  destruct (removePeer_spec p s Hwf) as (s' & Hrun & Hpm & Hdm & _).
  rewrite Hrun. simpl. apply removePeer_unknown.
  - rewrite Hpm. apply lookup_delete_eq.
  - rewrite Hdm. apply lookup_delete_eq.
Qed.

(** X3: [closeAll()] on a well-formed registry returns with both maps empty
    and every registered connection closed.  A registered channel ends up
    closed exactly when the connection it was created on is the one
    registered for its peer; connections that are not registered are left
    as they are. *)
Theorem closeAll_closes_registered_connections s :
  wf s ->
  exists s',
    closeAll s = (Return tt, s') /\
    peerConnections s' = ∅ /\
    dataChannels s' = ∅ /\
    (forall p r, peerConnections s !! p = Some r ->
       connectionState <$> pcs s' !! r = Some CsClosed) /\
    (forall r, (forall p, peerConnections s !! p <> Some r) ->
       pcs s' !! r = pcs s !! r) /\
    (forall q c ch, dataChannels s !! q = Some c -> chans s !! c = Some ch ->
       chans s' !! c =
       Some (if decide (peerConnections s !! q = Some (owner ch))
             then closed_ch ch else ch)).
Proof.
  intros Hwf. pose proof Hwf as (Hb & Hd & Hown).
  destruct (closeAll_spec s Hwf)
    as (s' & Hrun & Hpm & Hdm & _ & Hreg & Hunreg & Hcl & Hkeep).
  exists s'. split_and!; try done.
  - intros p r Hr. rewrite (Hreg p r Hr).
    destruct (bound_ok_lookup s p r Hb Hr) as (pc & -> & _). done.
  - intros q c ch Hc Hch.
    destruct (owners_ok_lookup s q c Hown Hc) as (ch' & Hch' & _ & Hq').
    assert (ch' = ch) as -> by congruence.
    case_decide as Hq.
    + by eapply Hcl.
    + apply Hkeep; [done|]. intros p' Hp'.
      assert (p' = q) as -> by (by apply Hq'). done.
Qed.

(** X4: after [closeAll()] the manager sends nothing and knows nobody:
    [sendMessage] returns [false] for every peer, [broadcast] and a second
    [closeAll] change nothing, and [createDataChannel] returns [null]. *)
Theorem closeAll_then_nothing_is_sent s :
  wf s ->
  forall p message lbl,
    let s' := snd (closeAll s) in
    sendMessage JSON_stringify p message s' = (Return false, s') /\
    broadcast JSON_stringify message s' = (Return tt, s') /\
    createDataChannel p lbl s' = (Return None, s') /\
    closeAll s' = (Return tt, s').
Proof.
  intros Hwf p message lbl.
  destruct (closeAll_spec s Hwf) as (s' & Hrun & Hpm & Hdm & _).
  rewrite Hrun. simpl. split_and!.
  - unfold sendMessage, bind, gets. by rewrite Hdm, lookup_empty.
  - unfold broadcast, bind, gets. by rewrite Hdm, map_to_list_empty.
  - unfold createDataChannel, bind, gets. by rewrite Hpm, lookup_empty.
  - unfold closeAll, bind, gets, modify. rewrite Hpm, map_to_list_empty. simpl.
    f_equal. destruct s' as [? ? ? ? ? ? ? ? ?]; simpl in *. by subst.
Qed.

(** [handleOffer] for a peer without session. *)
Lemma handleOffer_unknown_eq p d s :
  peerConnections s !! p = None ->
  let pc1 := mkPC CsNew None (Some d) [] (local_tracks (localStream s)) (Some p) in
  let answer := {| sdType := SdpAnswer; sdp := sdp_of SdpAnswer pc1 |} in
  handleOffer sdp_of p d s =
  (Return answer,
   set_peerConnections (<[p := length (pcs s)]>)
     (set_pcs (fun l => l ++ [mkPC CsNew (Some answer) (Some d) []
                                   (local_tracks (localStream s)) (Some p)]) s)).
Proof.
  intros Hp pc1 answer.
  assert (Hnew : forall (l : list RTCPeerConnection) x, (l ++ [x]) !! length l = Some x).
  { intros l x. rewrite lookup_app_r by lia. by rewrite Nat.sub_diag. }
  assert (Hput : forall (l : list RTCPeerConnection) x y,
             <[length l := y]> (l ++ [x]) = l ++ [y]).
  { intros l x y. replace (length l) with (length l + 0) at 1 by lia.
    by rewrite insert_app_r. }
  unfold handleOffer, bind, gets. rewrite Hp. rewrite createPeerConnection_eq.
  unfold pc_call at 1. cbn [pcs set_pcs set_peerConnections]. rewrite Hnew.
  cbn. unfold pc_call. cbn.
  repeat (rewrite ?Hput, ?Hnew; cbn).
  f_equal. destruct s as [l ? ? ? ? ? ? ? ?]; unfold set_peerConnections, set_pcs.
  cbn. f_equal. by rewrite !Hput.
Qed.

(** [handleOffer] for a peer whose connection is registered and not closed. *)
Lemma handleOffer_known_eq p r pc d s :
  peerConnections s !! p = Some r ->
  pcs s !! r = Some pc ->
  pc_closed pc = false ->
  let pc1 := mkPC (connectionState pc) (localDescription pc) (Some d)
                  (iceCandidates pc) (senders pc) (handlersFor pc) in
  let answer := {| sdType := SdpAnswer; sdp := sdp_of SdpAnswer pc1 |} in
  handleOffer sdp_of p d s =
  (Return answer,
   set_pcs (<[r := mkPC (connectionState pc) (Some answer) (Some d)
                        (iceCandidates pc) (senders pc) (handlersFor pc)]>) s).
Proof.
  intros Hp Hpc Hopen pc1 answer.
  assert (Hr : r < length (pcs s)) by (by eapply lookup_lt_Some).
  unfold handleOffer, bind, gets. rewrite Hp. unfold ret.
  unfold pc_call at 1. rewrite Hpc. unfold pc_setRemoteDescription. rewrite Hopen.
  unfold pc_call at 1. cbn [pcs set_pcs]. rewrite list_lookup_insert_eq by done.
  unfold pc_createAnswer, pc_closed. cbn [connectionState remoteDescription].
  unfold pc_closed in Hopen.
  destruct (connectionState pc) eqn:Ecs; try done.
  all: unfold pc_call; cbn [pcs set_pcs];
    rewrite list_lookup_insert_eq by (by rewrite length_insert);
    unfold pc_setLocalDescription, pc_closed; cbn [connectionState]; rewrite ?Ecs;
    subst pc1 answer; rewrite ?Ecs; f_equal;
    destruct s as [l ? ? ? ? ? ? ? ?]; unfold set_pcs; cbn in *;
    f_equal; by rewrite !list_insert_insert_eq.
Qed.

(** [createOffer] for a peer whose connection is registered and not closed. *)
Lemma createOffer_eq p r pc s :
  peerConnections s !! p = Some r ->
  pcs s !! r = Some pc ->
  pc_closed pc = false ->
  let offer := {| sdType := SdpOffer; sdp := sdp_of SdpOffer pc |} in
  createOffer sdp_of p s =
  (Return offer,
   set_pcs (<[r := mkPC (connectionState pc) (Some offer) (remoteDescription pc)
                        (iceCandidates pc) (senders pc) (handlersFor pc)]>) s).
Proof.
  intros Hp Hpc Hopen offer.
  assert (Hr : r < length (pcs s)) by (by eapply lookup_lt_Some).
  unfold createOffer, bind, gets. rewrite Hp. unfold ret.
  unfold pc_call at 1. rewrite Hpc. unfold pc_createOffer. rewrite Hopen.
  unfold pc_call. cbn [pcs set_pcs]. rewrite list_lookup_insert_eq by done.
  unfold pc_setLocalDescription. rewrite Hopen.
  f_equal. destruct s as [l ? ? ? ? ? ? ? ?]; unfold set_pcs; simpl in *.
  f_equal. by rewrite list_insert_insert_eq.
Qed.

(** X5: [handleOffer(peerId, offer)] for a peer without session creates the
    connection, registers it, and answers: the new connection carries the
    local tracks, the offer as its remote description and the returned
    answer as its local description.  Nothing else in the store or the
    registry changes. *)
Theorem handleOffer_creates_session p d s :
  peerConnections s !! p = None ->
  exists answer pc' s',
    handleOffer sdp_of p d s = (Return answer, s') /\
    sdType answer = SdpAnswer /\
    peerConnections s' = <[p := length (pcs s)]> (peerConnections s) /\
    pcs s' = pcs s ++ [pc'] /\
    remoteDescription pc' = Some d /\
    localDescription pc' = Some answer /\
    senders pc' = local_tracks (localStream s) /\
    handlersFor pc' = Some p /\
    connectionState pc' = CsNew /\
    dataChannels s' = dataChannels s /\ chans s' = chans s.
Proof.
  intros Hp. rewrite (handleOffer_unknown_eq p d s Hp).
  eexists _, _, _. split; [reflexivity|]. by split_and!.
Qed.

(** X6: [createOffer(peerId)] for a peer whose connection is registered and
    not closed returns an offer and leaves it as the local description of
    that connection; the registry, the other connections and the channels
    are left as they are. *)
Theorem createOffer_known_peer p r pc s :
  peerConnections s !! p = Some r ->
  pcs s !! r = Some pc ->
  pc_closed pc = false ->
  exists offer s',
    createOffer sdp_of p s = (Return offer, s') /\
    sdType offer = SdpOffer /\
    localDescription <$> pcs s' !! r = Some (Some offer) /\
    remoteDescription <$> pcs s' !! r = Some (remoteDescription pc) /\
    (forall r', r' <> r -> pcs s' !! r' = pcs s !! r') /\
    peerConnections s' = peerConnections s /\
    dataChannels s' = dataChannels s /\ chans s' = chans s.
Proof.
  intros Hp Hpc Hopen. rewrite (createOffer_eq p r pc s Hp Hpc Hopen).
  assert (Hr : r < length (pcs s)) by (by eapply lookup_lt_Some).
  eexists _, _. split; [reflexivity|]. cbn [pcs set_pcs].
  rewrite list_lookup_insert_eq by done. split_and!; try done.
  intros r' Hne. by apply list_lookup_insert_ne.
Qed.

(** X7: an answer or a candidate for a peer without session is dropped:
    nothing is created, changed or logged. *)
Theorem signalling_for_unknown_peer_is_dropped p d ice s :
  peerConnections s !! p = None ->
  handleAnswer p d s = (Return tt, s) /\
  addIceCandidate p ice s = (Return tt, s).
Proof.
  intros Hp. unfold handleAnswer, addIceCandidate, bind, gets. by rewrite Hp.
Qed.

End Lifecycle.

(** * Data channels *)

Section Channels.

Context {W : Type}.
Variable JSON_stringify : JSON -> string.
Variable JSON_parse : string -> option JSON.

Implicit Types (s : State (W := W)) (p q event : string) (r c : nat).

(** [createDataChannel] for a peer whose connection is not closed. *)
Lemma createDataChannel_eq p r pc lbl s :
  peerConnections s !! p = Some r ->
  pcs s !! r = Some pc ->
  pc_closed pc = false ->
  createDataChannel p lbl s =
  (Return (Some (length (chans s))),
   set_dataChannels (<[p := length (chans s)]>)
     (set_chans (fun l => l ++ [mkDC lbl true RsConnecting [] r (Some p)]) s)).
Proof.
  intros Hp Hpc Hopen.
  pose proof (new_channel_setup_eq r lbl p s) as Hnew.
  unfold createDataChannel, pc_createDataChannel, bind, gets in *.
  rewrite Hp, (pc_get_eq _ r pc s Hpc), Hopen.
  unfold new_RTCDataChannel in *. cbn in *. by rewrite Hnew.
Qed.

(** [broadcast] on a well-formed registry. *)
Lemma broadcast_eq message s :
  wf s ->
  exists l',
    broadcast JSON_stringify message s = (Return tt, set_chans (fun _ => l') s) /\
    (forall p c, dataChannels s !! p = Some c ->
       exists ch, chans s !! c = Some ch /\
         l' !! c =
         Some (if is_open (readyState ch)
               then delivered (JSON_stringify message) ch else ch)) /\
    (forall c, (forall p, dataChannels s !! p <> Some c) ->
       l' !! c = chans s !! c).
Proof.
  intros (_ & Hd & Hown).
  destruct (broadcast_loop (JSON_stringify message)
              (map_to_list (dataChannels s)) s) as (l' & Hrun & Hlen & Hin & Hout).
  { by apply refs_distinct_NoDup. }
  { intros c [p Hp]%refs_of_map_to_list.
    destruct (owners_ok_lookup s p c Hown Hp) as (ch & -> & _). by eexists. }
  exists l'. split_and!; try done.
  - intros p c Hp. apply Hin. apply refs_of_map_to_list. by exists p.
  - intros c Hc. apply Hout. intros [p Hp]%refs_of_map_to_list. by apply (Hc p).
Qed.

(** X8: a channel created with [createDataChannel] sends nothing until the
    browser reports it open.  For a peer whose connection is registered and
    not closed, the new channel is registered at once, [sendMessage] returns
    [false] while it is connecting, its opening emits one [dataChannelOpen]
    for the peer, and the next [sendMessage] returns [true] and hands the
    channel the serialised message, its first. *)
Theorem channel_sends_once_open p r pc lbl message s :
  peerConnections s !! p = Some r ->
  pcs s !! r = Some pc ->
  pc_closed pc = false ->
  Forall returns_normally (registered "dataChannelOpen" s) ->
  exists s1 s2 s3,
    createDataChannel p lbl s = (Return (Some (length (chans s))), s1) /\
    dataChannels s1 !! p = Some (length (chans s)) /\
    sendMessage JSON_stringify p message s1 = (Return false, s1) /\
    channel_opens (length (chans s)) s1 = (Return tt, s2) /\
    emitted s2 = emitted s ++ [("dataChannelOpen", PeerEvent p)] /\
    sendMessage JSON_stringify p message s2 = (Return true, s3) /\
    sent <$> chans s3 !! length (chans s) = Some [JSON_stringify message].
Proof.
  intros Hp Hpc Hopen Hcb.
  assert (Hnew : forall (l : list RTCDataChannel) x, (l ++ [x]) !! length l = Some x).
  { intros l x. rewrite lookup_app_r by lia. by rewrite Nat.sub_diag. }
  assert (Hput : forall (l : list RTCDataChannel) x y,
             <[length l := y]> (l ++ [x]) = l ++ [y]).
  { intros l x y. replace (length l) with (length l + 0) at 1 by lia.
    by rewrite insert_app_r. }
  rewrite (createDataChannel_eq p r pc lbl s Hp Hpc Hopen).
  set (c := length (chans s)). set (s1 := set_dataChannels _ _).
  assert (Hc1 : dataChannels s1 !! p = Some c) by apply lookup_insert_eq.
  assert (Hch1 : chans s1 !! c = Some (mkDC lbl true RsConnecting [] r (Some p)))
    by apply Hnew.
  assert (Hsend1 : sendMessage JSON_stringify p message s1 = (Return false, s1)).
  { unfold sendMessage, bind, gets. rewrite Hc1.
    by rewrite (ch_get_eq _ c _ s1 Hch1). }
  assert (Hopens : exists w',
    channel_opens c s1 =
    (Return tt,
     set_world w'
       (set_emitted (fun l => l ++ [("dataChannelOpen", PeerEvent p)])
          (set_chans (<[c := mkDC lbl true RsOpen [] r (Some p)]>) s1)))).
  { unfold channel_opens, bind. rewrite (ch_get_eq _ c _ s1 Hch1). cbn [readyState].
    rewrite (ch_call_eq _ c _ s1 Hch1). cbn [fst snd].
    unfold when_set_up, bind, ch_get. cbn [chans set_chans].
    unfold s1, c. cbn [chans set_chans set_dataChannels].
    rewrite Hput, Hnew. cbn [chHandlersFor ch_open].
    unfold channel_onopen.
    match goal with |- context [emit _ _ ?s'] =>
      destruct (emit_returns "dataChannelOpen" (PeerEvent p) s' Hcb) as [w' Hw']
    end.
    exists w'. exact Hw'. }
  destruct Hopens as [w' Hopens].
  set (s2 := set_world w' _) in Hopens.
  assert (Hch2 : chans s2 !! c = Some (mkDC lbl true RsOpen [] r (Some p))).
  { unfold s2, s1, c. cbn. rewrite Hput. apply Hnew. }
  eexists s1, s2, _. split_and!; try done.
  - unfold sendMessage, bind, gets.
    change (dataChannels s2) with (dataChannels s1). rewrite Hc1.
    rewrite (ch_get_eq _ c _ s2 Hch2). cbn [readyState is_open].
    rewrite (ch_call_eq _ c _ s2 Hch2). reflexivity.
  - cbn [snd fst chans set_chans ch_send is_open readyState delivered sent].
    unfold s2, s1, c. cbn. rewrite !Hput. by rewrite Hnew.
Qed.

(** X9: messages broadcast one after the other reach every registered open
    channel in that order, each exactly once; channels that are not open and
    channels that are not registered are given nothing. *)
Theorem broadcasts_arrive_in_order (messages : list JSON) s :
  wf s ->
  let s' := foldl (fun s m => snd (broadcast JSON_stringify m s)) s messages in
  (forall p c ch, dataChannels s !! p = Some c -> chans s !! c = Some ch ->
     chans s' !! c =
     Some (if is_open (readyState ch)
           then given (JSON_stringify <$> messages) ch else ch)) /\
  (forall c, (forall p, dataChannels s !! p <> Some c) ->
     chans s' !! c = chans s !! c) /\
  dataChannels s' = dataChannels s /\ peerConnections s' = peerConnections s /\
  pcs s' = pcs s.
Proof.
  revert s. induction messages as [|m messages IH]; intros s Hwf; cbn zeta.
  - simpl. split_and!; try done.
    intros p c ch _ ->. unfold given. rewrite app_nil_r.
    by destruct ch, (is_open _).
  - cbn [foldl].
    destruct (broadcast_eq m s Hwf) as (l' & Hrun & Hin & Hout).
    rewrite Hrun. cbn [snd].
    set (s1 := set_chans _ s).
    assert (Hwf1 : wf s1).
    { pose proof (preserves_wf_of_keeps_shape _
                    (keeps_shape_broadcast JSON_stringify m) s Hwf) as H1.
      by rewrite Hrun in H1. }
    destruct (IH s1 Hwf1) as (IHin & IHout & IHd & IHp & IHpcs).
    split_and!; try done.
    + intros p c ch Hc Hch.
      destruct (Hin p c Hc) as (ch' & Hch' & Hl').
      assert (ch' = ch) as -> by congruence.
      rewrite (IHin p c _ Hc Hl').
      destruct (is_open (readyState ch)) eqn:Ho; [|by rewrite Ho].
      cbn [delivered readyState]. rewrite Ho. unfold given, delivered. cbn.
      by rewrite <- app_assoc.
    + intros c Hc. rewrite (IHout c Hc). by apply Hout.
Qed.

(** X10: [broadcast(message)] does to the channel of each registered peer
    what [sendMessage(peerId, message)] does. *)
Theorem broadcast_is_sendMessage_to_each p c message s :
  wf s ->
  dataChannels s !! p = Some c ->
  chans (snd (broadcast JSON_stringify message s)) !! c =
  chans (snd (sendMessage JSON_stringify p message s)) !! c.
Proof.
  intros Hwf Hc.
  destruct (broadcast_eq message s Hwf) as (l' & -> & Hin & _).
  destruct (Hin p c Hc) as (ch & Hch & Hl'). cbn [snd chans set_chans].
  rewrite Hl'. unfold sendMessage, bind, gets. rewrite Hc.
  rewrite (ch_get_eq _ c ch s Hch).
  destruct (is_open (readyState ch)) eqn:Ho; [|done].
  rewrite (ch_call_eq _ c ch s Hch). unfold ch_send. rewrite Ho.
  cbn. symmetry. apply list_lookup_insert_eq. by eapply lookup_lt_Some.
Qed.


(** The callbacks see the collaborators' state and nothing else. *)
Lemma forEach_run_callback_world data (cbs : list (Callback (W := W))) :
  forall s1 s2, world s1 = world s2 ->
    fst (forEach cbs (run_callback data) s1) = fst (forEach cbs (run_callback data) s2) /\
    world (snd (forEach cbs (run_callback data) s1)) =
    world (snd (forEach cbs (run_callback data) s2)).
Proof.
  induction cbs as [|cb cbs IH]; intros s1 s2 Hw; [done|].
  cbn [forEach]. unfold bind.
  assert (H1 : run_callback data cb s1 =
               (fst (cb data (world s2)), set_world (snd (cb data (world s2))) s1)).
  { unfold run_callback. rewrite Hw. by destruct (cb data (world s2)). }
  assert (H2 : run_callback data cb s2 =
               (fst (cb data (world s2)), set_world (snd (cb data (world s2))) s2)).
  { unfold run_callback. by destruct (cb data (world s2)). }
  rewrite H1, H2.
  destruct (cb data (world s2)) as [[[]|e] w1]; [|done].
  by apply IH.
Qed.

(** X12: listeners are kept per event name: registering a callback for one
    event changes neither the outcome of [emit] for another event nor what
    its listeners do to the collaborators. *)
Theorem emit_ignores_other_events event event' (cb : Callback) data s :
  event' <> event ->
  let s1 := snd (on event' cb s) in
  registered event s1 = registered event s /\
  fst (emit event data s1) = fst (emit event data s) /\
  world (snd (emit event data s1)) = world (snd (emit event data s)).
Proof.
  intros Hne s1.
  assert (Hreg : registered event s1 = registered event s)
    by (by apply registered_on_other).
  split; [done|]. rewrite !emit_eq, Hreg.
  by apply forEach_run_callback_world.
Qed.

(** X13: a transport state other than [failed] and [disconnected] keeps the
    peer.  On a live connection, with [connectionStateChange] listeners that
    do not throw, the handler emits that one event with the new state and
    changes nothing else: both registry entries and every channel stay. *)
Theorem transport_progress_keeps_peer p r pc st s :
  pcs s !! r = Some pc ->
  pc_closed pc = false ->
  handlersFor pc = Some p ->
  failed_or_disconnected st = false ->
  Forall returns_normally (registered "connectionStateChange" s) ->
  exists w',
    transport_reports r st s =
    (Return tt,
     set_world w'
       (set_emitted (fun l => l ++ [("connectionStateChange", StateEvent p st)])
          (set_pcs (<[r := pc_in_state st pc]>) s))).
Proof.
  intros Hpc Hopen Hh Hst Hcsc.
  unfold transport_reports. rewrite (when_live_eq r pc p _ s Hpc Hopen Hh).
  unfold bind at 1. rewrite (pc_call_eq _ r pc s Hpc). cbn [fst snd].
  set (s0 := set_pcs _ s).
  assert (Hpc0 : pcs s0 !! r = Some (pc_in_state st pc)).
  { unfold s0; simpl. apply list_lookup_insert_eq. by eapply lookup_lt_Some. }
  unfold pc_onconnectionstatechange, bind.
  rewrite (pc_get_eq _ r _ s0 Hpc0). cbn [connectionState pc_in_state].
  destruct (emit_returns "connectionStateChange" (StateEvent p st) s0 Hcsc)
    as [w1 ->].
  set (s1 := set_world w1 _).
  rewrite (pc_get_eq _ r (pc_in_state st pc) s1 Hpc0).
  cbn [connectionState pc_in_state]. rewrite Hst. by exists w1.
Qed.

(** X26: a channel opened by the remote side on a live connection is set up
    for the peer the connection was created for and registered under that
    peer id.  A channel registered for that peer before loses its entry and
    is left as it is, not closed. *)
Theorem remote_channel_is_registered_for_its_peer r pc p lbl s :
  pcs s !! r = Some pc ->
  pc_closed pc = false ->
  handlersFor pc = Some p ->
  exists s',
    remote_opens_channel r lbl s = (Return tt, s') /\
    dataChannels s' = <[p := length (chans s)]> (dataChannels s) /\
    chans s' = chans s ++ [mkDC lbl true RsConnecting [] r (Some p)] /\
    peerConnections s' = peerConnections s /\ pcs s' = pcs s.
Proof.
  intros Hpc Hopen Hh. unfold remote_opens_channel.
  rewrite (when_live_eq r pc p _ s Hpc Hopen Hh).
  pose proof (new_channel_setup_eq r lbl p s) as Hnew.
  eexists. split; [exact Hnew|]. by split_and!.
Qed.

End Channels.

(** * Tracks and statistics *)

Section Tracks.

Context {W : Type}.

Implicit Types (s : State (W := W)) (p q : string) (r : nat).

Lemma replace_first_of_kind_none k newTrack (l : list Track) :
  has_kind k l = false -> replace_first_of_kind k newTrack l = l.
Proof.
  unfold has_kind. intros H%bool_decide_eq_false.
  induction l as [|t l IH]; [done|]. simpl.
  case_decide as Hk.
  - exfalso. apply H. by apply Exists_cons_hd.
  - rewrite IH; [done|]. intros Hl. apply H. by apply Exists_cons_tl.
Qed.

Lemma pc_replaceTrack_same_kind oldTrack newTrack pc :
  kind newTrack = kind oldTrack ->
  pc_replaceTrack oldTrack newTrack pc =
  (Return tt, with_track_replaced oldTrack newTrack pc).
Proof.
  intros Hk. unfold pc_replaceTrack, with_track_replaced.
  destruct (pc_closed pc); [done|].
  destruct (has_kind _ _) eqn:Hh.
  - by rewrite decide_True.
  - rewrite replace_first_of_kind_none by done. by destruct pc.
Qed.

Lemma pc_replaceTrack_other_kind oldTrack newTrack pc :
  kind newTrack <> kind oldTrack ->
  pc_replaceTrack oldTrack newTrack pc =
  (if negb (pc_closed pc) && has_kind (kind oldTrack) (senders pc)
   then Throw TypeError else Return tt, pc).
Proof.
  intros Hk. unfold pc_replaceTrack.
  destruct (pc_closed pc); [done|].
  destruct (has_kind _ _); [|done]. by rewrite decide_False.
Qed.

Lemma handlersFor_replaceTrack oldTrack newTrack pc :
  handlersFor (snd (pc_replaceTrack oldTrack newTrack pc)) = handlersFor pc.
Proof.
  unfold pc_replaceTrack.
  destruct (pc_closed pc); [done|].
  destruct (has_kind _ _); [|done]. by case_decide.
Qed.

Lemma keeps_shape_replaceTrack oldTrack newTrack :
  keeps_shape (replaceTrack (W := W) oldTrack newTrack).
Proof.
  unfold replaceTrack.
  apply keeps_shape_bind; [apply keeps_shape_gets|]. intros entries.
  apply keeps_shape_forEach. intros [p r].
  apply keeps_shape_pc_call, handlersFor_replaceTrack.
Qed.

(** A loop that calls one method, which always returns, on each listed
    connection. *)
Lemma pc_call_loop (f : RTCPeerConnection -> RTCPeerConnection)
    (method : RTCPeerConnection -> Outcome unit * RTCPeerConnection)
    (entries : list (string * nat)) :
  (forall pc, method pc = (Return tt, f pc)) ->
  forall s,
    NoDup entries.*2 ->
    (forall r, r ∈ entries.*2 -> is_Some (pcs s !! r)) ->
    exists l',
      forEach entries (fun '(peerId, pc) => pc_call pc method) s
      = (Return tt, set_pcs (fun _ => l') s) /\
      length l' = length (pcs s) /\
      (forall r, r ∈ entries.*2 -> l' !! r = f <$> pcs s !! r) /\
      (forall r, r ∉ entries.*2 -> l' !! r = pcs s !! r).
Proof.
  intros Hm. induction entries as [|[p r] entries IH]; intros s Hnd Hin.
  - exists (pcs s). simpl. split_and!; try done.
    + unfold ret. f_equal. symmetry. by apply set_pcs_const.
    + intros r Hr. by apply elem_of_nil in Hr.
  - rewrite fmap_cons in Hnd, Hin. simpl in Hnd, Hin.
    apply NoDup_cons in Hnd as [Hr Hnd].
    destruct (Hin r) as [pc Hpc]; [apply elem_of_cons; by left|].
    set (s1 := set_pcs (<[r := f pc]>) s).
    assert (Hbody : pc_call r method s = (Return tt, s1)).
    { rewrite (pc_call_eq _ r pc s Hpc). by rewrite Hm. }
    destruct (IH s1 Hnd) as (l' & Hrun & Hlen & Hl'in & Hl'out).
    { intros r' Hr'. unfold s1; simpl.
      apply lookup_lt_is_Some. rewrite length_insert. apply lookup_lt_is_Some.
      apply Hin. apply elem_of_cons. by right. }
    exists l'. split_and!.
    + simpl. unfold bind at 1. rewrite Hbody. rewrite Hrun.
      by destruct s.
    + rewrite Hlen. unfold s1; simpl. apply length_insert.
    + intros r' Hr'. rewrite fmap_cons in Hr'. simpl in Hr'.
      apply elem_of_cons in Hr' as [->|Hr'].
      * rewrite (Hl'out r Hr). unfold s1; simpl. rewrite Hpc. simpl.
        apply list_lookup_insert_eq. by eapply lookup_lt_Some.
      * rewrite (Hl'in r' Hr').
        assert (r <> r') by (intros ->; done).
        unfold s1; simpl. by rewrite list_lookup_insert_ne.
    + intros r' Hr'. rewrite fmap_cons in Hr'. simpl in Hr'.
      apply not_elem_of_cons in Hr' as [Hne Hr'].
      rewrite (Hl'out r' Hr'). unfold s1; simpl.
      by rewrite list_lookup_insert_ne.
Qed.

(** A loop that calls, on each listed connection, one method that leaves the
    object as it is: the first throw ends it. *)
Lemma pc_call_loop_unchanged (fails : RTCPeerConnection -> bool) e
    (method : RTCPeerConnection -> Outcome unit * RTCPeerConnection)
    (entries : list (string * nat)) s :
  (forall pc, method pc = (if fails pc then Throw e else Return tt, pc)) ->
  (forall r, r ∈ entries.*2 -> is_Some (pcs s !! r)) ->
  forEach entries (fun '(peerId, pc) => pc_call pc method) s =
  (if bool_decide (Exists (fun r => fails <$> pcs s !! r = Some true) entries.*2)
   then Throw e else Return tt, s).
Proof.
  intros Hm. induction entries as [|[p r] entries IH]; intros Hin.
  - rewrite fmap_nil. rewrite bool_decide_eq_false_2; [done|]. by intros H%Exists_nil.
  - rewrite fmap_cons in Hin |- *. cbn [forEach snd] in Hin |- *.
    destruct (Hin r) as [pc Hpc]; [apply elem_of_cons; by left|].
    unfold bind at 1. rewrite (pc_call_eq _ r pc s Hpc), Hm. cbn [fst snd].
    rewrite (set_pcs_insert_id s r pc Hpc).
    destruct (fails pc) eqn:Hf.
    + rewrite bool_decide_eq_true_2; [done|].
      apply Exists_cons_hd. by rewrite Hpc; simpl; rewrite Hf.
    + rewrite IH by (intros r' Hr'; apply Hin, elem_of_cons; by right).
      assert (Hiff : Exists (fun r => fails <$> pcs s !! r = Some true) (r :: entries.*2)
                     <-> Exists (fun r => fails <$> pcs s !! r = Some true) entries.*2).
      { rewrite Exists_cons. split; [|by right]. intros [H|H]; [|done].
        rewrite Hpc in H. simpl in H. congruence. }
      by rewrite (bool_decide_ext _ _ Hiff).
Qed.

Lemma registered_refs_NoDup s : bound_ok s -> NoDup (map_to_list (peerConnections s)).*2.
Proof.
  intros Hb. apply refs_distinct_NoDup. apply refs_distinct_spec.
  intros a b r Ha Hb'. by eapply bound_ok_distinct.
Qed.

(** X14: [replaceTrack(oldTrack, newTrack)] between tracks of one kind
    returns, and on every registered connection that is not closed the
    first sender carrying a track of that kind now carries [newTrack].
    Connections that are not registered, the registry and the channels are
    left as they are. *)
Theorem replaceTrack_replaces_on_every_connection oldTrack newTrack s :
  wf s ->
  kind newTrack = kind oldTrack ->
  exists l',
    replaceTrack oldTrack newTrack s = (Return tt, set_pcs (fun _ => l') s) /\
    length l' = length (pcs s) /\
    (forall p r pc, peerConnections s !! p = Some r -> pcs s !! r = Some pc ->
       l' !! r = Some (with_track_replaced oldTrack newTrack pc)) /\
    (forall r, (forall p, peerConnections s !! p <> Some r) ->
       l' !! r = pcs s !! r).
Proof.
  intros (Hb & _ & _) Hk.
  destruct (pc_call_loop (with_track_replaced oldTrack newTrack)
              (pc_replaceTrack oldTrack newTrack)
              (map_to_list (peerConnections s))
              (fun pc => pc_replaceTrack_same_kind oldTrack newTrack pc Hk) s)
    as (l' & Hrun & Hlen & Hin & Hout).
  { by apply registered_refs_NoDup. }
  { intros r [p Hp]%refs_of_map_to_list.
    destruct (bound_ok_lookup s p r Hb Hp) as (pc & -> & _). by eexists. }
  exists l'. split_and!; try done.
  - intros p r pc Hp Hpc. rewrite Hin, Hpc; [done|].
    apply refs_of_map_to_list. by exists p.
  - intros r Hr. apply Hout. intros [p Hp]%refs_of_map_to_list. by apply (Hr p).
Qed.

(** X15: which sender [replaceTrack] changes is decided by the kind of
    [oldTrack] alone: among the senders of a connection it is the first
    whose track has that kind, whether or not that track is [oldTrack], and
    every other sender keeps its track.  Without a sender of that kind the
    senders stay as they are. *)
Theorem replace_first_of_kind_spec k newTrack (pre post : list Track) t :
  Forall (fun t' => kind t' <> k) pre ->
  (kind t = k ->
   replace_first_of_kind k newTrack (pre ++ t :: post) = pre ++ newTrack :: post) /\
  (replace_first_of_kind k newTrack pre = pre).
Proof.
  intros Hpre. induction Hpre as [|t' pre Ht' Hpre [IH1 IH2]]; simpl.
  - split; [|done]. intros Hk. by rewrite decide_True.
  - rewrite !decide_False by done. split.
    + intros Hk. by rewrite IH1.
    + by rewrite IH2.
Qed.

(** X16: when the new track is of another kind than the old one, the first
    sender found refuses it: [replaceTrack] rejects with a [TypeError] as
    soon as some registered connection that is not closed has a sender of
    the old track's kind, returns when none has, and in both cases no
    connection has changed. *)
Theorem replaceTrack_other_kind_changes_nothing oldTrack newTrack s :
  wf s ->
  kind newTrack <> kind oldTrack ->
  ((exists p r pc, peerConnections s !! p = Some r /\ pcs s !! r = Some pc /\
      pc_closed pc = false /\ has_kind (kind oldTrack) (senders pc) = true) ->
   replaceTrack oldTrack newTrack s = (Throw TypeError, s)) /\
  ((forall p r pc, peerConnections s !! p = Some r -> pcs s !! r = Some pc ->
      pc_closed pc = false -> has_kind (kind oldTrack) (senders pc) = false) ->
   replaceTrack oldTrack newTrack s = (Return tt, s)).
Proof.
  intros (Hb & _ & _) Hk.
  assert (Hrun : replaceTrack oldTrack newTrack s =
    (if bool_decide (Exists (fun r =>
           (fun pc => negb (pc_closed pc) && has_kind (kind oldTrack) (senders pc))
             <$> pcs s !! r = Some true) (map_to_list (peerConnections s)).*2)
     then Throw TypeError else Return tt, s)).
  { unfold replaceTrack, bind, gets.
    apply (pc_call_loop_unchanged
             (fun pc => negb (pc_closed pc) && has_kind (kind oldTrack) (senders pc))
             TypeError).
    - intros pc. by apply pc_replaceTrack_other_kind.
    - intros r [p Hp]%refs_of_map_to_list.
      destruct (bound_ok_lookup s p r Hb Hp) as (pc & -> & _). by eexists. }
  rewrite Hrun. split.
  - intros (p & r & pc & Hp & Hpc & Hc & Hh).
    rewrite bool_decide_eq_true_2; [done|].
    apply Exists_exists. exists r. split.
    + apply refs_of_map_to_list. by exists p.
    + rewrite Hpc. simpl. by rewrite Hc, Hh.
  - intros Hnone. rewrite bool_decide_eq_false_2; [done|].
    intros (r & [p Hp]%refs_of_map_to_list & Hr)%Exists_exists.
    destruct (pcs s !! r) as [pc|] eqn:Hpc; [|done].
    simpl in Hr. injection Hr as Hr. apply andb_true_iff in Hr as [Hc Hh].
    rewrite (Hnone p r pc Hp Hpc) in Hh; [done|]. by destruct (pc_closed pc).
Qed.

End Tracks.

Section Stats.

Context {W : Type}.
Variable stats_of : RTCPeerConnection -> list StatsReport.

Implicit Types (s : State (W := W)) (p : string) (r : nat).

Local Open Scope Z_scope.

(** The loop of [getStats], from any intermediate [result]. *)
Lemma add_reports_eq (reports : list StatsReport) :
  forall result,
    foldl add_report result reports =
    mkStats (bytesReceived result + total is_inbound reportBytesReceived reports)
            (bytesSent result + total is_outbound reportBytesSent reports)
            (packetsLost result + total is_inbound reportPacketsLost reports)
            (match last_of is_succeeded_pair reports with
             | Some report => time_or_zero (reportRoundTripTime report)
             | None => roundTripTime result
             end).
Proof.
  unfold total, last_of.
  induction reports as [|report reports IH]; intros result.
  - simpl. destruct result; simpl. f_equal; lia.
  - cbn [foldl]. rewrite IH. unfold add_report. cbn [List.filter].
    destruct (is_inbound report), (is_outbound report),
      (is_succeeded_pair report); cbn [bytesReceived bytesSent packetsLost
      roundTripTime foldr last];
      destruct (List.filter is_succeeded_pair reports) eqn:E;
      cbn [last]; f_equal; try lia; try done.
    all: destruct (last (_ :: _)) eqn:El; [done|by apply last_None in El].
Qed.


Lemma total_Permutation sel counter (l l' : list StatsReport) :
  l ≡ₚ l' -> total sel counter l = total sel counter l'.
Proof.
  unfold total. induction 1 as [|x l l' _ IH|x y l|l l' l'' _ IH1 _ IH2]; simpl.
  - done.
  - destruct (sel x); simpl; by rewrite ?IH.
  - destruct (sel x), (sel y); simpl; lia.
  - by rewrite IH1.
Qed.


End Stats.

(** * Signaling and the meeting page *)

Section Signaling.

Implicit Types (a b c : string) (body : Signal).

(** X19: a message sent to a named peer is handled by that peer and by
    nobody else on the channel. *)
Theorem directed_message_reaches_only_its_addressee a b c body :
  a <> b -> b <> "" ->
  LocalSignaling_accepts c (LocalSignaling_send a body (Some b)) = true <-> c = b.
Proof.
  intros Hab Hb. unfold LocalSignaling_accepts, LocalSignaling_send, addressed_elsewhere.
  cbn [msgTo msgFrom].
  rewrite (bool_decide_eq_false_2 (b = "")) by done. cbn [negb andb].
  destruct (decide (b = c)) as [<-|Hbc].
  - rewrite (bool_decide_eq_true_2 (b = b)) by done. cbn [negb].
    by rewrite bool_decide_eq_false_2.
  - rewrite (bool_decide_eq_false_2 (b = c)) by done. cbn [negb].
    split; [done|]. by intros ->.
Qed.

(** X20: a broadcast is handled by every endpoint but its sender, and a
    message sent with the empty string as addressee is a broadcast. *)
Theorem broadcast_reaches_everyone_else a c body :
  (LocalSignaling_accepts c (LocalSignaling_broadcast a body) = true <-> c <> a) /\
  LocalSignaling_accepts c (LocalSignaling_send a body (Some "")) =
  LocalSignaling_accepts c (LocalSignaling_broadcast a body).
Proof.
  unfold LocalSignaling_accepts, LocalSignaling_broadcast, LocalSignaling_send,
    addressed_elsewhere.
  cbn [msgTo msgFrom]. rewrite (bool_decide_eq_true_2 ("" = "")) by done.
  cbn [negb andb]. split; [|done].
  case_bool_decide as Hac; split; done.
Qed.

End Signaling.

Section Meeting.

Variable JSON_stringify : JSON -> string.
Variable JSON_parse : string -> option JSON.
Variable sdp_of : SdpType -> RTCPeerConnection -> string.

Implicit Types (s : State (W := Page)) (from a b : string) (r : nat).

Lemma new_pc_lookup (l : list RTCPeerConnection) x : (l ++ [x]) !! length l = Some x.
Proof. rewrite lookup_app_r by lia. by rewrite Nat.sub_diag. Qed.

Lemma new_pc_insert (l : list RTCPeerConnection) x y :
  <[length l := y]> (l ++ [x]) = l ++ [y].
Proof.
  replace (length l) with (length l + 0) at 1 by lia. by rewrite insert_app_r.
Qed.

(** The [join] listener, on any page. *)
Lemma on_join_eq from s :
  let pc0 := fresh_pc from (localStream s) in
  let offer := {| sdType := SdpOffer; sdp := sdp_of SdpOffer pc0 |} in
  on_join sdp_of from s =
  (Return tt,
   set_world (posted (SigOffer offer) from (world s))
     (set_pcs (fun l => l ++ [mkPC CsNew (Some offer) None []
                                   (local_tracks (localStream s)) (Some from)])
        (set_dataChannels (<[from := length (chans s)]>)
           (set_chans (fun l => l ++ [mkDC "nextmeet" true RsConnecting []
                                           (length (pcs s)) (Some from)])
              (set_peerConnections (<[from := length (pcs s)]>) s))))).
Proof.
  intros pc0 offer. unfold on_join, bind at 1.
  rewrite createPeerConnection_eq. set (s1 := set_peerConnections _ _).
  assert (Hp1 : peerConnections s1 !! from = Some (length (pcs s)))
    by apply lookup_insert_eq.
  assert (Hpc1 : pcs s1 !! length (pcs s) = Some pc0) by apply new_pc_lookup.
  unfold bind at 1.
  rewrite (createDataChannel_eq from (length (pcs s)) pc0 "nextmeet" s1 Hp1 Hpc1 eq_refl).
  set (s2 := set_dataChannels _ _).
  unfold bind.
  rewrite (createOffer_eq sdp_of from (length (pcs s)) pc0 s2 Hp1 Hpc1 eq_refl).
  unfold signaling_send, modify. f_equal.
  destruct s as [l ? ? ? ? ? ? ? ?]. unfold s2, s1, set_world, set_pcs, posted.
  cbn. f_equal. apply new_pc_insert.
Qed.

(** X21: the [join] listener never runs into the [TypeError] of
    [createOffer]: because it creates the connection first, on any page and
    for any sender it registers a new connection and a new [nextmeet]
    channel for the sender, makes the offer the local description of that
    connection, and posts exactly one message, the offer, to the sender. *)
Theorem join_is_answered_with_an_offer from s :
  exists offer s',
    on_join sdp_of from s = (Return tt, s') /\
    sdType offer = SdpOffer /\
    peerConnections s' = <[from := length (pcs s)]> (peerConnections s) /\
    dataChannels s' = <[from := length (chans s)]> (dataChannels s) /\
    pcs s' = pcs s ++ [mkPC CsNew (Some offer) None []
                            (local_tracks (localStream s)) (Some from)] /\
    chans s' = chans s ++ [mkDC "nextmeet" true RsConnecting []
                                (length (pcs s)) (Some from)] /\
    outbox (world s') =
      outbox (world s) ++ [mkMsg (selfId (world s)) (Some from) (SigOffer offer)] /\
    selfId (world s') = selfId (world s).
Proof.
  rewrite on_join_eq.
  exists {| sdType := SdpOffer; sdp := sdp_of SdpOffer (fresh_pc from (localStream s)) |}.
  eexists. split; [reflexivity|]. by split_and!.
Qed.

(** The [offer] listener. *)
Lemma on_offer_eq from d s answer s1 :
  handleOffer sdp_of from d s = (Return answer, s1) ->
  on_offer sdp_of from d s =
  (Return tt, set_world (posted (SigAnswer answer) from (world s1)) s1).
Proof. intros H. unfold on_offer, bind. by rewrite H. Qed.

(** X22: an offer is answered: when the sender has no session yet, or its
    registered connection is not closed, the [offer] listener leaves the
    sender's connection with the offer as remote and the answer as local
    description and posts exactly one message, that answer, to the
    sender. *)
Theorem offer_is_answered from d s :
  wf s ->
  (forall r pc, peerConnections s !! from = Some r -> pcs s !! r = Some pc ->
     pc_closed pc = false) ->
  exists answer s' r pc',
    on_offer sdp_of from d s = (Return tt, s') /\
    sdType answer = SdpAnswer /\
    outbox (world s') =
      outbox (world s) ++ [mkMsg (selfId (world s)) (Some from) (SigAnswer answer)] /\
    peerConnections s' !! from = Some r /\
    pcs s' !! r = Some pc' /\
    remoteDescription pc' = Some d /\
    localDescription pc' = Some answer.
Proof.
  intros (Hb & _ & _) Hopen.
  destruct (peerConnections s !! from) as [r|] eqn:Hp.
  - destruct (bound_ok_lookup s from r Hb Hp) as (pc & Hpc & _).
    pose proof (handleOffer_known_eq sdp_of from r pc d s Hp Hpc (Hopen r pc eq_refl Hpc))
      as Hrun. cbn zeta in Hrun.
    rewrite (on_offer_eq _ _ _ _ _ Hrun).
    match type of Hrun with _ = (Return ?ans, _) => exists ans end.
    eexists _, r, _. split; [reflexivity|]. do 3 (split; [done|]).
    split; [cbn; apply list_lookup_insert_eq; by eapply lookup_lt_Some|]. done.
  - pose proof (handleOffer_unknown_eq sdp_of from d s Hp) as Hrun. cbn zeta in Hrun.
    rewrite (on_offer_eq _ _ _ _ _ Hrun).
    match type of Hrun with _ = (Return ?ans, _) => exists ans end.
    eexists _, (length (pcs s)), _. split; [reflexivity|]. do 2 (split; [done|]).
    split; [apply lookup_insert_eq|]. split; [apply new_pc_lookup|]. done.
Qed.


(** X24: the handshake between two pages.  Page [b] announces itself; page
    [a] answers the [join] with an offer addressed to [b]; [b], which has no
    session with [a] yet, answers the offer; [a] takes the answer.  After
    the three deliveries both pages hold a connection for each other whose
    descriptions agree: [a]'s local description is [b]'s remote one, the
    offer, and [b]'s local description is [a]'s remote one, the answer. *)
Theorem handshake_completes a b sA sB :
  selfId (world sA) = a ->
  selfId (world sB) = b ->
  a <> b ->
  peerConnections sB !! a = None ->
  exists offer answer rA rB pcA pcB,
    let sA1 := snd (page_receives sdp_of (LocalSignaling_broadcast b (SigJoin b)) sA) in
    let sB1 := snd (page_receives sdp_of (LocalSignaling_send a (SigOffer offer) (Some b)) sB) in
    let sA2 := snd (page_receives sdp_of (LocalSignaling_send b (SigAnswer answer) (Some a)) sA1) in
    last_posted sA1 = Some (LocalSignaling_send a (SigOffer offer) (Some b)) /\
    last_posted sB1 = Some (LocalSignaling_send b (SigAnswer answer) (Some a)) /\
    peerConnections sA2 !! b = Some rA /\ pcs sA2 !! rA = Some pcA /\
    peerConnections sB1 !! a = Some rB /\ pcs sB1 !! rB = Some pcB /\
    localDescription pcA = Some offer /\ remoteDescription pcB = Some offer /\
    localDescription pcB = Some answer /\ remoteDescription pcA = Some answer.
Proof.
  intros Ha Hb Hab HpB.
  assert (Hacc : forall x y body, x <> y ->
            LocalSignaling_accepts x (LocalSignaling_send y body (Some x)) = true).
  { intros x y body Hxy.
    unfold LocalSignaling_accepts, LocalSignaling_send, addressed_elsewhere.
    cbn [msgTo msgFrom]. rewrite (bool_decide_eq_true_2 (x = x)) by done.
    rewrite andb_false_r. by rewrite bool_decide_eq_false_2. }
  assert (HsA1 : snd (page_receives sdp_of (LocalSignaling_broadcast b (SigJoin b)) sA)
                 = snd (on_join sdp_of b sA)).
  { unfold page_receives, bind, gets. rewrite Ha.
    unfold LocalSignaling_accepts, LocalSignaling_broadcast, LocalSignaling_send,
      addressed_elsewhere. cbn [msgTo msgFrom msgBody].
    by rewrite bool_decide_eq_false_2. }
  rewrite on_join_eq in HsA1. cbn [snd] in HsA1.
  set (offer := {| sdType := SdpOffer;
                   sdp := sdp_of SdpOffer (fresh_pc b (localStream sA)) |}) in *.
  pose proof (handleOffer_unknown_eq sdp_of a offer sB HpB) as HrunB. cbn zeta in HrunB.
  set (answer := {| sdType := SdpAnswer; sdp := sdp_of SdpAnswer _ |}) in *.
  assert (HsB1 : snd (page_receives sdp_of (LocalSignaling_send a (SigOffer offer) (Some b)) sB)
                 = snd (on_offer sdp_of a offer sB)).
  { unfold page_receives, bind, gets. rewrite Hb.
    rewrite Hacc by done. reflexivity. }
  rewrite (on_offer_eq _ _ _ _ _ HrunB) in HsB1. cbn [snd] in HsB1.
  exists offer, answer, (length (pcs sA)), (length (pcs sB)).
  eexists _, _. cbn zeta. rewrite HsA1, HsB1.
  set (sA1 := set_world _ _).
  assert (HsA2 : snd (page_receives sdp_of (LocalSignaling_send b (SigAnswer answer) (Some a)) sA1)
                 = snd (handleAnswer b answer sA1)).
  { unfold page_receives, bind, gets.
    change (selfId (world sA1)) with (selfId (world sA)). rewrite Ha.
    rewrite Hacc by done. reflexivity. }
  rewrite HsA2.
  assert (Hp1 : peerConnections sA1 !! b = Some (length (pcs sA)))
    by apply lookup_insert_eq.
  assert (Hpc1 : pcs sA1 !! length (pcs sA) =
                 Some (mkPC CsNew (Some offer) None []
                            (local_tracks (localStream sA)) (Some b)))
    by apply new_pc_lookup.
  unfold handleAnswer, bind, gets. rewrite Hp1.
  rewrite (pc_call_eq _ _ _ sA1 Hpc1). cbn [snd fst pc_setRemoteDescription].
  split_and!.
  - unfold last_posted, sA1, posted. cbn. rewrite Ha. apply last_snoc.
  - unfold last_posted, posted. cbn. rewrite Hb. apply last_snoc.
  - done.
  - cbn. rewrite new_pc_insert. apply new_pc_lookup.
  - apply lookup_insert_eq.
  - apply new_pc_lookup.
  - done.
  - done.
  - done.
  - done.
Qed.

Lemma sub_shape_set_world (w : Page) s : sub_shape s (set_world w s).
Proof. by unfold sub_shape. Qed.

Lemma preserves_wf_signaling_send body to :
  preserves_wf (signaling_send body to).
Proof.
  apply preserves_wf_of_keeps_shape, keeps_shape_modify.
  intros s. apply sub_shape_set_world.
Qed.

Lemma preserves_wf_detached (m : M (W := Page) unit) :
  preserves_wf m -> preserves_wf (detached m).
Proof. intros Hm s Hwf. by apply Hm. Qed.

Lemma preserves_wf_ret {A} (a : A) : preserves_wf (ret (W := Page) a).
Proof. by intros s Hwf. Qed.

Lemma preserves_wf_page_receives m : preserves_wf (page_receives sdp_of m).
Proof.
  unfold page_receives.
  apply preserves_wf_bind; [by intros s Hwf|]. intros self.
  destruct (LocalSignaling_accepts self m); [|apply preserves_wf_ret].
  destruct (msgBody m); try apply preserves_wf_ret; apply preserves_wf_detached.
  - unfold on_join.
    apply preserves_wf_bind; [apply preserves_wf_createPeerConnection|]. intros _.
    apply preserves_wf_bind; [apply preserves_wf_createDataChannel|]. intros _.
    apply preserves_wf_bind; [apply preserves_wf_createOffer|]. intros offer.
    apply preserves_wf_signaling_send.
  - unfold on_offer.
    apply preserves_wf_bind; [apply preserves_wf_handleOffer|]. intros answer.
    apply preserves_wf_signaling_send.
  - apply preserves_wf_of_keeps_shape, keeps_shape_handleAnswer.
  - apply preserves_wf_of_keeps_shape, keeps_shape_addIceCandidate.
Qed.

Lemma preserves_wf_announce : preserves_wf announce.
Proof.
  unfold announce. apply preserves_wf_bind; [by intros s Hwf|]. intros self.
  apply preserves_wf_signaling_send.
Qed.

(** X25: the registry invariant holds at every moment of a meeting page's
    life: after any sequence of signaling messages, announcements, manager
    calls, browser events and track replacements on a new page, every
    registered connection carries the handlers of its peer id, no channel
    is registered twice, and every registered channel belongs to a
    connection of the store that is registered, if at all, under the same
    peer id. *)
Theorem wf_page_run (evs : list PageEvent) (self : string) :
  wf (page_run JSON_stringify JSON_parse sdp_of evs (new_page self)).
Proof.
  unfold page_run.
  assert (Hnew : wf (new_page self)).
  { unfold new_page.
    apply (preserves_wf_of_keeps_shape _ (keeps_shape_on _ _)), wf_constructor. }
  revert Hnew. generalize (new_page self).
  induction evs as [|ev evs IH]; intros s Hwf; simpl; [done|].
  apply IH. destruct ev as [m| |t|oldTrack newTrack]; simpl.
  - by apply preserves_wf_page_receives.
  - by apply preserves_wf_announce.
  - by apply wf_step.
  - by apply (preserves_wf_of_keeps_shape _ (keeps_shape_replaceTrack _ _)).
Qed.

End Meeting.

(** * Examples on the concrete instance *)

(** C1, counterexample: two candidates of B arrive before B's offer.  Each is
    refused and logged; after [handleOffer] has set the remote description
    the connection has applied no candidate at all. *)
Lemma early_ice_candidates_are_dropped :
  remoteDescription <$> pcs Demo.early_candidates !! 0 = Some None /\
  fst (handleOffer Demo.sdp_text "B" Demo.offer Demo.early_candidates)
    = Return {| sdType := SdpAnswer; sdp := "answer-sdp" |} /\
  remoteDescription <$>
    pcs (Demo.exec (handleOffer Demo.sdp_text "B" Demo.offer) Demo.early_candidates) !! 0
    = Some (Some Demo.offer) /\
  iceCandidates <$>
    pcs (Demo.exec (handleOffer Demo.sdp_text "B" Demo.offer) Demo.early_candidates) !! 0
    = Some [] /\
  console (Demo.exec (handleOffer Demo.sdp_text "B" Demo.offer) Demo.early_candidates)
    = [("Failed to add ICE candidate:", InvalidStateError);
       ("Failed to add ICE candidate:", InvalidStateError)].
Proof. vm_compute. repeat split. Qed.

Lemma addIceCandidate_applies_or_drops_witness :
  addIceCandidate "B" (Demo.cand 1) (Demo.exec (createPeerConnection "B") Demo.s0) =
  (Return tt,
   set_console (fun l => l ++ [("Failed to add ICE candidate:", InvalidStateError)])
     (Demo.exec (createPeerConnection "B") Demo.s0)).
Proof.
  apply (proj1 (proj2 (addIceCandidate_applies_or_drops Demo.sdp_text "B" 0
                  (fresh_pc "B" None)
                  (Demo.exec (createPeerConnection "B") Demo.s0)
                  eq_refl eq_refl eq_refl))).
  reflexivity.
Defined.

(** C2, counterexample: the first of two callbacks registered for an event
    throws; [emit] throws and the second callback is never called (only
    label 1 is recorded). *)
Lemma emit_throw_skips_later_callbacks :
  registered "peerDisconnected" Demo.two_listeners = [Demo.fails 1; Demo.logs 2] /\
  fst (emit "peerDisconnected" (PeerEvent "B") Demo.two_listeners)
    = Throw (UserError 1) /\
  world (snd (emit "peerDisconnected" (PeerEvent "B") Demo.two_listeners)) = [1].
Proof. vm_compute. repeat split. Qed.

Lemma emit_runs_until_first_throw_witness :
  emit "peerDisconnected" (PeerEvent "B") Demo.two_listeners =
  (Throw (UserError 1),
   set_world [1]
     (set_emitted (fun l => l ++ [("peerDisconnected", PeerEvent "B")])
        Demo.two_listeners)).
Proof.
  apply (proj2 (proj2 (emit_runs_until_first_throw
                         "peerDisconnected" (PeerEvent "B") Demo.two_listeners))
           [] (Demo.fails 1) [Demo.logs 2] [] [1] (UserError 1)).
  - reflexivity.
  - constructor.
  - reflexivity.
Defined.

(** C3, counterexample: peer B has a connection that is being established;
    [createPeerConnection "B"] does not fail and does not return that
    connection: it returns a new object and the registry now names the new
    one, the old one staying open in the store. *)
Lemma createPeerConnection_replaces_live_session :
  peerConnections Demo.answering !! "B" = Some 0 /\
  connectionState <$> pcs Demo.answering !! 0 = Some CsConnecting /\
  fst (createPeerConnection "B" Demo.answering) = Return 1 /\
  peerConnections (Demo.exec (createPeerConnection "B") Demo.answering) !! "B" = Some 1 /\
  pcs (Demo.exec (createPeerConnection "B") Demo.answering) !! 1
    = Some (fresh_pc "B" None) /\
  connectionState <$> pcs (Demo.exec (createPeerConnection "B") Demo.answering) !! 0
    = Some CsConnecting.
Proof. vm_compute. repeat split. Qed.

Lemma createOffer_unknown_peer_throws_witness :
  exists s',
    createOffer Demo.sdp_text "B" Demo.s0 = (Throw TypeError, s') /\
    peerConnections s' !! "B" = Some 0 /\
    pcs s' = [fresh_pc "B" None].
Proof. apply (createOffer_unknown_peer_throws Demo.sdp_text "B" Demo.s0). reflexivity. Defined.


Lemma broadcast_spec_witness :
  exists s',
    broadcast Demo.stringify Demo.chat_hi Demo.meeting = (Return tt, s') /\
    sent <$> chans s' !! 0 = Some [Demo.stringify Demo.chat_hi] /\
    sent <$> chans s' !! 1 = Some [].
Proof.
  assert (Hwf : wf Demo.meeting) by (apply (bool_decide_unpack _); vm_compute; exact I).
  destruct (broadcast_spec Demo.stringify Demo.chat_hi Demo.meeting Hwf)
    as (s' & Hrun & _ & _ & Hin & _).
  exists s'. split; [exact Hrun|]. split.
  - destruct (Hin "B" 0 eq_refl) as (ch & Hch & ->).
    vm_compute in Hch. injection Hch as <-. reflexivity.
  - destruct (Hin "C" 1 eq_refl) as (ch & Hch & ->).
    vm_compute in Hch. injection Hch as <-. reflexivity.
Defined.

(** C7, counterexample: a [connectionStateChange] listener throws when B's
    connection is reported failed; the handler throws, B stays registered
    (connection and channel) and no [peerDisconnected] is emitted. *)
Lemma throwing_listener_blocks_removal :
  fst (transport_reports 0 CsFailed Demo.meeting_listener_throws)
    = Throw (UserError 1) /\
  peerConnections
    (Demo.exec (transport_reports 0 CsFailed) Demo.meeting_listener_throws) !! "B"
    = Some 0 /\
  dataChannels
    (Demo.exec (transport_reports 0 CsFailed) Demo.meeting_listener_throws) !! "B"
    = Some 0 /\
  emitted (Demo.exec (transport_reports 0 CsFailed) Demo.meeting_listener_throws)
    = emitted Demo.meeting_listener_throws
      ++ [("connectionStateChange", StateEvent "B" CsFailed)].
Proof. vm_compute. repeat split. Qed.

Lemma transport_failure_removes_peer_witness :
  exists s',
    transport_reports 0 CsFailed Demo.meeting_watched = (Return tt, s') /\
    peerConnections s' !! "B" = None /\
    dataChannels s' !! "B" = None /\
    peerConnections s' !! "C" = Some 1 /\
    emitted s' = emitted Demo.meeting_watched
                 ++ [("connectionStateChange", StateEvent "B" CsFailed);
                     ("peerDisconnected", PeerEvent "B")].
Proof.
  destruct (transport_failure_removes_peer "B" 0 (fresh_pc "B" None) CsFailed
              Demo.meeting_watched) as (s' & Hrun & Hpm & Hdm & Hem & _).
  - apply (bool_decide_unpack _). vm_compute. exact I.
  - reflexivity.
  - reflexivity.
  - reflexivity.
  - reflexivity.
  - vm_compute. constructor.
  - vm_compute. constructor; [|constructor].
    intros data w. eexists. reflexivity.
  - exists s'. split; [exact Hrun|]. rewrite Hpm, Hdm, Hem.
    vm_compute. repeat split.
Defined.

(** C8 at its failing input: B's registered channel was created on a
    connection that [createPeerConnection] has since replaced.  [closeAll]
    empties both maps and closes the registered connection, but the channel
    is still open afterwards (and so is the replaced connection);
    [removePeer "B"] on the same state does close the channel. *)
Lemma closeAll_does_not_close_channels :
  peerConnections Demo.replaced !! "B" = Some 1 /\
  dataChannels Demo.replaced !! "B" = Some 0 /\
  fst (closeAll Demo.replaced) = Return tt /\
  peerConnections (Demo.exec closeAll Demo.replaced) = ∅ /\
  dataChannels (Demo.exec closeAll Demo.replaced) = ∅ /\
  connectionState <$> pcs (Demo.exec closeAll Demo.replaced) = [CsNew; CsClosed] /\
  readyState <$> chans (Demo.exec closeAll Demo.replaced) = [RsOpen] /\
  readyState <$> chans (Demo.exec (removePeer "B") Demo.replaced) = [RsClosed].
Proof. vm_compute. repeat split. Qed.

(** C9 at its failing input: a [file-info] control message arrives, it
    parses, and the message listener throws on it; the handler then emits
    the same payload as [dataChannelBinary] too, so the binary listener
    (label 2) receives a payload that parsed. *)
Lemma parsed_payload_reaches_binary_listener :
  Demo.parse (payload_toString (PText (Demo.stringify Demo.file_info)))
    = Some Demo.file_info /\
  fst (channel_onmessage Demo.parse "B" (PText (Demo.stringify Demo.file_info))
         Demo.chatting) = Return tt /\
  emitted (Demo.exec (channel_onmessage Demo.parse "B"
                        (PText (Demo.stringify Demo.file_info))) Demo.chatting)
    = emitted Demo.chatting
      ++ [("dataChannelMessage", MessageEvent "B" Demo.file_info);
          ("dataChannelBinary", BinaryEvent "B" (PText (Demo.stringify Demo.file_info)))] /\
  world (Demo.exec (channel_onmessage Demo.parse "B"
                      (PText (Demo.stringify Demo.file_info))) Demo.chatting)
    = [2].
Proof. vm_compute. repeat split. Qed.

Lemma createDataChannel_unknown_peer_witness :
  createDataChannel "B" "nextmeet" Demo.s0 = (Return None, Demo.s0).
Proof. apply (createDataChannel_unknown_peer "B" "nextmeet" Demo.s0). reflexivity. Defined.

(** X1, example: B leaves the meeting of B and C. *)
Lemma removePeer_closes_and_forgets_witness :
  exists s',
    removePeer "B" Demo.meeting = (Return tt, s') /\
    peerConnections s' !! "B" = None /\
    connectionState <$> pcs s' !! 0 = Some CsClosed /\
    readyState <$> chans s' !! 0 = Some RsClosed /\
    pcs s' !! 1 = pcs Demo.meeting !! 1 /\
    chans s' !! 1 = chans Demo.meeting !! 1.
Proof.
  destruct (removePeer_closes_and_forgets "B" Demo.meeting)
    as (s' & Hrun & Hpm & _ & Hpc & Hch & Hopc & Hoch & _).
  - apply (bool_decide_unpack _). vm_compute. exact I.
  - exists s'. split; [exact Hrun|]. rewrite Hpm. split; [reflexivity|].
    split; [by apply Hpc|]. split; [by apply Hch|].
    split; [by apply (Hopc "C")|by apply (Hoch "C")].
Defined.

(** X2, example: B is removed twice. *)
Lemma removePeer_idempotent_witness :
  removePeer "B" (Demo.exec (removePeer "B") Demo.meeting) =
  (Return tt, Demo.exec (removePeer "B") Demo.meeting).
Proof.
  apply (removePeer_idempotent "B" Demo.meeting).
  apply (bool_decide_unpack _). vm_compute. exact I.
Defined.

(** X3, example: [closeAll] where B's connection was created twice: the
    registered connection 1 is closed, while connection 0 and B's channel,
    created on it, stay open. *)
Lemma closeAll_closes_registered_connections_witness :
  exists s',
    closeAll Demo.replaced = (Return tt, s') /\
    peerConnections s' = ∅ /\ dataChannels s' = ∅ /\
    connectionState <$> pcs s' !! 1 = Some CsClosed /\
    pcs s' !! 0 = pcs Demo.replaced !! 0 /\
    readyState <$> chans s' !! 0 = Some RsOpen.
Proof.
  destruct (closeAll_closes_registered_connections Demo.replaced)
    as (s' & Hrun & Hpm & Hdm & Hreg & Hunreg & Hch).
  - apply (bool_decide_unpack _). vm_compute. exact I.
  - exists s'. split; [exact Hrun|]. do 2 (split; [done|]).
    split; [by apply (Hreg "B")|]. split.
    + apply Hunreg. intros p. vm_compute.
      destruct (decide (p = "B")) as [->|Hne]; [discriminate|].
      change (({[ "B" := 1 ]} : gmap string nat) !! p <> Some 0).
      rewrite lookup_singleton_ne by done. discriminate.
    + rewrite (Hch "B" 0 _ eq_refl eq_refl). reflexivity.
Defined.

(** X4, example: after [closeAll] in the meeting of B and C. *)
Lemma closeAll_then_nothing_is_sent_witness :
  sendMessage Demo.stringify "B" Demo.chat_hi (Demo.exec closeAll Demo.meeting) =
  (Return false, Demo.exec closeAll Demo.meeting).
Proof.
  apply (closeAll_then_nothing_is_sent Demo.stringify Demo.meeting).
  - apply (bool_decide_unpack _). vm_compute. exact I.
  - exact "nextmeet".
Defined.

(** X5, example: B's offer reaches a manager that knows nobody. *)
Lemma handleOffer_creates_session_witness :
  exists answer pc' s',
    handleOffer Demo.sdp_text "B" Demo.offer Demo.s0 = (Return answer, s') /\
    peerConnections s' !! "B" = Some 0 /\
    pcs s' = [pc'] /\
    remoteDescription pc' = Some Demo.offer /\
    localDescription pc' = Some answer.
Proof.
  destruct (handleOffer_creates_session Demo.sdp_text "B" Demo.offer Demo.s0)
    as (answer & pc' & s' & Hrun & _ & Hpm & Hpcs & Hr & Hl & _).
  - reflexivity.
  - exists answer, pc', s'. split; [exact Hrun|]. rewrite Hpm.
    split; [reflexivity|]. by split_and!.
Defined.

(** X6, example: an offer for B in the meeting. *)
Lemma createOffer_known_peer_witness :
  exists offer s',
    createOffer Demo.sdp_text "B" Demo.meeting = (Return offer, s') /\
    localDescription <$> pcs s' !! 0 = Some (Some offer) /\
    pcs s' !! 1 = pcs Demo.meeting !! 1.
Proof.
  destruct (createOffer_known_peer Demo.sdp_text "B" 0 (fresh_pc "B" None) Demo.meeting)
    as (offer & s' & Hrun & _ & Hl & _ & Hother & _).
  - reflexivity.
  - reflexivity.
  - reflexivity.
  - exists offer, s'. split; [exact Hrun|]. split; [exact Hl|]. by apply Hother.
Defined.

(** X7, example: an answer and a candidate of D, whom the meeting does not
    know. *)
Lemma signalling_for_unknown_peer_is_dropped_witness :
  handleAnswer "D" Demo.offer Demo.meeting = (Return tt, Demo.meeting) /\
  addIceCandidate "D" (Demo.cand 1) Demo.meeting = (Return tt, Demo.meeting).
Proof.
  apply (signalling_for_unknown_peer_is_dropped "D" Demo.offer (Demo.cand 1) Demo.meeting).
  reflexivity.
Defined.

(** X8, example: the first channel for B. *)
Lemma channel_sends_once_open_witness :
  exists s1 s2 s3,
    createDataChannel "B" "nextmeet" (Demo.exec (createPeerConnection "B") Demo.s0)
      = (Return (Some 0), s1) /\
    sendMessage Demo.stringify "B" Demo.chat_hi s1 = (Return false, s1) /\
    channel_opens 0 s1 = (Return tt, s2) /\
    sendMessage Demo.stringify "B" Demo.chat_hi s2 = (Return true, s3) /\
    sent <$> chans s3 !! 0 = Some [Demo.stringify Demo.chat_hi].
Proof.
  destruct (channel_sends_once_open Demo.stringify "B" 0 (fresh_pc "B" None) "nextmeet"
              Demo.chat_hi (Demo.exec (createPeerConnection "B") Demo.s0))
    as (s1 & s2 & s3 & H1 & _ & H2 & H3 & _ & H4 & H5).
  - reflexivity.
  - reflexivity.
  - reflexivity.
  - vm_compute. constructor.
  - exists s1, s2, s3. by split_and!.
Defined.

(** X9, example: two broadcasts in the meeting: B's open channel gets both
    in order, C's connecting channel none. *)
Lemma broadcasts_arrive_in_order_witness :
  let s' := foldl (fun s m => snd (broadcast Demo.stringify m s)) Demo.meeting
                  [Demo.chat_hi; Demo.file_info] in
  sent <$> chans s' !! 0 =
    Some [Demo.stringify Demo.chat_hi; Demo.stringify Demo.file_info] /\
  sent <$> chans s' !! 1 = Some [].
Proof.
  destruct (broadcasts_arrive_in_order Demo.stringify [Demo.chat_hi; Demo.file_info]
              Demo.meeting) as (Hin & _).
  - apply (bool_decide_unpack _). vm_compute. exact I.
  - cbn zeta. split.
    + rewrite (Hin "B" 0 _ eq_refl eq_refl). reflexivity.
    + rewrite (Hin "C" 1 _ eq_refl eq_refl). reflexivity.
Defined.

(** X10, example: B's channel after a broadcast and after a message to B. *)
Lemma broadcast_is_sendMessage_to_each_witness :
  chans (snd (broadcast Demo.stringify Demo.chat_hi Demo.meeting)) !! 0 =
  chans (snd (sendMessage Demo.stringify "B" Demo.chat_hi Demo.meeting)) !! 0.
Proof.
  apply (broadcast_is_sendMessage_to_each Demo.stringify "B" 0 Demo.chat_hi Demo.meeting).
  - apply (bool_decide_unpack _). vm_compute. exact I.
  - reflexivity.
Defined.


(** X12, example: a listener for another event is added to the two
    [peerDisconnected] listeners. *)
Lemma emit_ignores_other_events_witness :
  fst (emit "peerDisconnected" (PeerEvent "B")
         (Demo.exec (on "dataChannelOpen" (Demo.logs 5)) Demo.two_listeners)) =
  fst (emit "peerDisconnected" (PeerEvent "B") Demo.two_listeners).
Proof.
  apply (emit_ignores_other_events "peerDisconnected" "dataChannelOpen" (Demo.logs 5)
           (PeerEvent "B") Demo.two_listeners).
  discriminate.
Defined.

(** X13, example: B's connection starts connecting. *)
Lemma transport_progress_keeps_peer_witness :
  exists w',
    transport_reports 0 CsConnecting Demo.meeting_watched =
    (Return tt,
     set_world w'
       (set_emitted (fun l => l ++ [("connectionStateChange", StateEvent "B" CsConnecting)])
          (set_pcs (<[0 := pc_in_state CsConnecting (fresh_pc "B" None)]>)
             Demo.meeting_watched))).
Proof.
  apply (transport_progress_keeps_peer "B" 0 (fresh_pc "B" None) CsConnecting
           Demo.meeting_watched).
  - reflexivity.
  - reflexivity.
  - reflexivity.
  - reflexivity.
  - vm_compute. constructor.
Defined.

(** X14, example: the camera gives way to the shared screen on the
    connections to B and C; the microphone stays. *)
Lemma replaceTrack_replaces_on_every_connection_witness :
  exists l',
    replaceTrack Demo.camera Demo.screen Demo.streaming =
      (Return tt, set_pcs (fun _ => l') Demo.streaming) /\
    senders <$> l' !! 0 = Some [Demo.mic; Demo.screen] /\
    senders <$> l' !! 1 = Some [Demo.mic; Demo.screen].
Proof.
  destruct (replaceTrack_replaces_on_every_connection Demo.camera Demo.screen
              Demo.streaming) as (l' & Hrun & _ & Hin & _).
  - apply (bool_decide_unpack _). vm_compute. exact I.
  - reflexivity.
  - exists l'. split; [exact Hrun|]. split.
    + rewrite (Hin "B" 0 _ eq_refl eq_refl). reflexivity.
    + rewrite (Hin "C" 1 _ eq_refl eq_refl). reflexivity.
Defined.

(** X15, example: with camera and screen both attached, replacing the
    screen replaces the camera, the first video sender. *)
Lemma replace_first_of_kind_spec_witness :
  replace_first_of_kind (kind Demo.screen) Demo.mic
    ([Demo.mic] ++ Demo.camera :: [Demo.screen]) =
  [Demo.mic] ++ Demo.mic :: [Demo.screen].
Proof.
  apply (replace_first_of_kind_spec (kind Demo.screen) Demo.mic [Demo.mic]
           [Demo.screen] Demo.camera).
  - constructor; [discriminate|constructor].
  - reflexivity.
Defined.

(** X16, example: the microphone offered in place of the camera is
    refused. *)
Lemma replaceTrack_other_kind_changes_nothing_witness :
  replaceTrack Demo.camera Demo.mic Demo.streaming = (Throw TypeError, Demo.streaming).
Proof.
  apply (replaceTrack_other_kind_changes_nothing Demo.camera Demo.mic Demo.streaming).
  - apply (bool_decide_unpack _). vm_compute. exact I.
  - discriminate.
  - exists "B", 0. eexists. split; [reflexivity|]. split; [reflexivity|].
    split; reflexivity.
Defined.



(** X19, example: Alice's offer for Bob is handled by Bob's page only. *)
Lemma directed_message_reaches_only_its_addressee_witness :
  LocalSignaling_accepts "peer_b"
    (LocalSignaling_send "peer_a" (SigOffer Demo.offer) (Some "peer_b")) = true.
Proof.
  apply (directed_message_reaches_only_its_addressee "peer_a" "peer_b" "peer_b"
           (SigOffer Demo.offer)).
  - discriminate.
  - discriminate.
  - reflexivity.
Defined.

(** X22, example: Bob's page, just loaded, receives Alice's offer. *)
Lemma offer_is_answered_witness :
  exists answer s' r pc',
    on_offer Demo.sdp_text "peer_a" Demo.offer Demo.bob = (Return tt, s') /\
    last_posted s' = Some (LocalSignaling_send "peer_b" (SigAnswer answer) (Some "peer_a")) /\
    peerConnections s' !! "peer_a" = Some r /\
    pcs s' !! r = Some pc' /\
    remoteDescription pc' = Some Demo.offer /\
    localDescription pc' = Some answer.
Proof.
  destruct (offer_is_answered Demo.sdp_text "peer_a" Demo.offer Demo.bob)
    as (answer & s' & r & pc' & Hrun & _ & Hout & Hrest).
  - apply (bool_decide_unpack _). vm_compute. exact I.
  - intros r pc Hr. discriminate Hr.
  - exists answer, s', r, pc'. split; [exact Hrun|]. split; [|exact Hrest].
    unfold last_posted. rewrite Hout. apply last_snoc.
Defined.


(** X24, example: the handshake of Alice's and Bob's pages. *)
Lemma handshake_completes_witness :
  exists offer answer rA rB pcA pcB,
    let sA1 := snd (page_receives Demo.sdp_text
                      (LocalSignaling_broadcast "peer_b" (SigJoin "peer_b")) Demo.alice) in
    let sB1 := snd (page_receives Demo.sdp_text
                      (LocalSignaling_send "peer_a" (SigOffer offer) (Some "peer_b"))
                      Demo.bob) in
    let sA2 := snd (page_receives Demo.sdp_text
                      (LocalSignaling_send "peer_b" (SigAnswer answer) (Some "peer_a"))
                      sA1) in
    last_posted sA1 = Some (LocalSignaling_send "peer_a" (SigOffer offer) (Some "peer_b")) /\
    last_posted sB1 = Some (LocalSignaling_send "peer_b" (SigAnswer answer) (Some "peer_a")) /\
    peerConnections sA2 !! "peer_b" = Some rA /\ pcs sA2 !! rA = Some pcA /\
    peerConnections sB1 !! "peer_a" = Some rB /\ pcs sB1 !! rB = Some pcB /\
    localDescription pcA = Some offer /\ remoteDescription pcB = Some offer /\
    localDescription pcB = Some answer /\ remoteDescription pcA = Some answer.
Proof.
  apply (handshake_completes Demo.sdp_text "peer_a" "peer_b" Demo.alice Demo.bob).
  - reflexivity.
  - reflexivity.
  - discriminate.
  - reflexivity.
Defined.

(** X26, example: B, whose offer was answered, opens a channel. *)
Lemma remote_channel_is_registered_for_its_peer_witness :
  exists s',
    remote_opens_channel 0 "nextmeet" Demo.answering = (Return tt, s') /\
    dataChannels s' !! "B" = Some 0 /\
    chHandlersFor <$> chans s' !! 0 = Some (Some "B").
Proof.
  destruct (remote_channel_is_registered_for_its_peer 0 _ "B" "nextmeet" Demo.answering
              eq_refl eq_refl eq_refl) as (s' & Hrun & Hdm & Hch & _).
  exists s'. split; [exact Hrun|]. rewrite Hdm, Hch. split; reflexivity.
Defined.
